(** * OrderedMultiQueue: a shallow embedding of
      cartographer/sensor/internal/ordered_multi_queue.cc

    The merger collates several time-stamped sensor queues into one
    globally ordered stream.  The embedding keeps the merger's members as
    an explicit state record, threads it through every member function,
    and turns glog CHECK failures, null dereferences and non-termination
    into explicit error results. *)

From Stdlib Require OrderedTypeEx.
From stdpp Require Import gmap strings list sorting.

Open Scope Z_scope.

(** ** Time stamps, keys, items *)

(** Modelled from the spec: common::Time is declared in common/time.h,
    which is not part of the sources at hand.  It is a totally ordered
    time point with a 64-bit signed tick count; the merger only compares
    time points and takes maxima, so it is embedded as [Z]. *)
Definition Time : Type := Z.

(** Modelled from the spec: common::Time::min(), the minimum
    representable time stamp. *)
Definition Time_min : Time := - 2 ^ 63.

(** Modelled from the spec: QueueKey is declared in the header; it is the
    pair (trajectory_id, sensor_id) ordered lexicographically. *)
Record QueueKey : Type := mkQueueKey {
  trajectory_id : Z;
  sensor_id : string
}.

#[global] Instance QueueKey_eq_dec : EqDecision QueueKey.
Proof. solve_decision. Defined.

Definition key_ltb (a b : QueueKey) : bool :=
  (trajectory_id a <? trajectory_id b) ||
  ((trajectory_id a =? trajectory_id b) &&
   String.ltb (sensor_id a) (sensor_id b)).

(** A sensor item.  The merger observes nothing but [GetTime]; the
    payload stands for the rest of the object and tells items apart. *)
Record Data : Type := mkData {
  GetTime : Time;
  payload : nat
}.

#[global] Instance Data_eq_dec : EqDecision Data.
Proof. solve_decision. Defined.

(** ** One queue of the merger

    Modelled from the spec: struct Queue of the header holds a
    common::BlockingQueue (push-back, pop-front, peek-front, size), the
    callback and the flag [finished], initially false.  The callback is
    opaque to the merger: calling it is recorded in the state's trace
    under the key of the queue it was bound to. *)
Record Queue : Type := mkQueue {
  queue : list Data;
  finished : bool
}.

Definition Queue_default : Queue := mkQueue [] false.

Definition Peek (q : Queue) : option Data := head (queue q).
Definition Size (q : Queue) : Z := Z.of_nat (length (queue q)).
Definition Push (d : Data) (q : Queue) : Queue :=
  mkQueue (queue q ++ [d]) (finished q).
(** BlockingQueue::Pop waits until the queue is non-empty: on an empty
    queue it never returns. *)
Definition Pop (q : Queue) : option (Data * Queue) :=
  match queue q with
  | [] => None
  | d :: rest => Some (d, mkQueue rest (finished q))
  end.
Definition set_finished (q : Queue) : Queue := mkQueue (queue q) true.

(** ** The std::map of queues

    [queues_] is a std::map<QueueKey, Queue>: entries are kept and
    iterated in key order.  It is embedded as an association list whose
    insertion keeps the key order. *)
Abbreviation Queues := (list (QueueKey * Queue)).

Fixpoint map_find (k : QueueKey) (qs : Queues) : option Queue :=
  match qs with
  | [] => None
  | (k', q) :: rest => if decide (k = k') then Some q else map_find k rest
  end.

Fixpoint map_insert (k : QueueKey) (q : Queue) (qs : Queues) : Queues :=
  match qs with
  | [] => [(k, q)]
  | (k', q') :: rest =>
      if key_ltb k k' then (k, q) :: qs else (k', q') :: map_insert k q rest
  end.

(** In-place mutation of the record stored under [k]. *)
Fixpoint map_adjust (f : Queue -> Queue) (k : QueueKey) (qs : Queues) : Queues :=
  match qs with
  | [] => []
  | (k', q) :: rest =>
      if decide (k = k') then (k', f q) :: rest
      else (k', q) :: map_adjust f k rest
  end.

(** [queue.Pop()] on the record stored under [k]; [None] when that call
    would never return. *)
Fixpoint map_pop (k : QueueKey) (qs : Queues) : option Queues :=
  match qs with
  | [] => None
  | (k', q) :: rest =>
      if decide (k = k') then
        match Pop q with
        | Some (_, q') => Some ((k', q') :: rest)
        | None => None
        end
      else
        match map_pop k rest with
        | Some rest' => Some ((k', q) :: rest')
        | None => None
        end
  end.

(** ** The merger's state *)

(** What a run of the merger does to the outside world: an item handed to
    the callback of its queue, or an item destroyed without being handed
    over (the owner going out of scope in the last branch of Dispatch). *)
Inductive Event : Type :=
  | Delivered (k : QueueKey) (d : Data)
  | Dropped (k : QueueKey) (d : Data).

#[global] Instance Event_eq_dec : EqDecision Event.
Proof. solve_decision. Defined.

Record State : Type := mkState {
  queues_ : Queues;
  last_dispatched_time_ : Time;
  common_start_time_per_trajectory_ : gmap Z Time;
  blocker_ : QueueKey;
  trace : list Event
}.

(** OrderedMultiQueue::OrderedMultiQueue().  [blocker_] is
    default-constructed. *)
Definition init : State :=
  mkState [] Time_min ∅ (mkQueueKey 0 "") [].

Definition set_queues (qs : Queues) (s : State) : State :=
  mkState qs (last_dispatched_time_ s) (common_start_time_per_trajectory_ s)
          (blocker_ s) (trace s).
Definition set_last_dispatched_time (t : Time) (s : State) : State :=
  mkState (queues_ s) t (common_start_time_per_trajectory_ s)
          (blocker_ s) (trace s).
Definition set_common_start_time (traj : Z) (t : Time) (s : State) : State :=
  mkState (queues_ s) (last_dispatched_time_ s)
          (<[traj := t]> (common_start_time_per_trajectory_ s))
          (blocker_ s) (trace s).
Definition set_blocker (k : QueueKey) (s : State) : State :=
  mkState (queues_ s) (last_dispatched_time_ s)
          (common_start_time_per_trajectory_ s) k (trace s).
Definition emit (e : Event) (s : State) : State :=
  mkState (queues_ s) (last_dispatched_time_ s)
          (common_start_time_per_trajectory_ s) (blocker_ s) (trace s ++ [e]).

(** ** Results *)

Inductive Error : Type :=
  | CheckFailed       (* a glog CHECK aborted the process *)
  | NullDereference   (* Peek returned nullptr and was dereferenced *)
  | Hang.             (* the call never returns *)

Inductive Result (A : Type) : Type :=
  | Ok (a : A)
  | Err (e : Error).
Arguments Ok {A} a.
Arguments Err {A} e.

Definition bind {A B : Type} (r : Result A) (f : A -> Result B) : Result B :=
  match r with
  | Ok a => f a
  | Err e => Err e
  end.

(** ** OrderedMultiQueue::CannotMakeProgress

    Records the blocker.  The rate-limited warning about queues longer
    than kMaxQueueSize goes to the log only and changes no member. *)
Definition kMaxQueueSize : Z := 500.

Definition CannotMakeProgress (queue_key : QueueKey) (s : State) : State :=
  set_blocker queue_key s.

(** ** OrderedMultiQueue::GetCommonStartTime

    [emplace] inserts Time::min() when the trajectory has no entry; only
    then the loop raises the entry to the latest front time among the
    trajectory's queues.  Every [Peek] result is dereferenced unguarded. *)
Fixpoint latest_front (traj : Z) (acc : Time) (qs : Queues) : Result Time :=
  match qs with
  | [] => Ok acc
  | (k, q) :: rest =>
      if decide (trajectory_id k = traj) then
        match Peek q with
        | None => Err NullDereference
        | Some d => latest_front traj (Z.max acc (GetTime d)) rest
        end
      else latest_front traj acc rest
  end.

Definition GetCommonStartTime (traj : Z) (s : State) : Result (Time * State) :=
  match common_start_time_per_trajectory_ s !! traj with
  | Some t => Ok (t, s)
  | None =>
      bind (latest_front traj Time_min (queues_ s)) (fun t =>
      Ok (t, set_common_start_time traj t s))
  end.

(** ** OrderedMultiQueue::Dispatch: the scan over the queues *)

(** The three locals of the loop body: next_data, next_queue (the record
    the pointer refers to) and next_queue_key. *)
Record Candidate : Type := mkCandidate {
  next_data : Data;
  next_queue : Queue;
  next_queue_key : QueueKey
}.

Inductive ScanResult : Type :=
  | ScanFatal                                    (* CHECK_LE failed *)
  | ScanBlocked (qs : Queues) (k : QueueKey)     (* CannotMakeProgress(k); return *)
  | ScanDone (qs : Queues) (next : option Candidate).

Definition pick (next : option Candidate) (k : QueueKey) (q : Queue) (d : Data)
  : Candidate :=
  match next with
  | None => mkCandidate d q k
  | Some c =>
      if GetTime d <? GetTime (next_data c) then mkCandidate d q k else c
  end.

Definition keep (e : QueueKey * Queue) (r : ScanResult) : ScanResult :=
  match r with
  | ScanFatal => ScanFatal
  | ScanBlocked qs b => ScanBlocked (e :: qs) b
  | ScanDone qs n => ScanDone (e :: qs) n
  end.

(** The for loop of lines 122-149.  The result carries the map as the
    loop leaves it: erased entries are gone, all others are kept. *)
Fixpoint scan (last : Time) (next : option Candidate) (qs : Queues) : ScanResult :=
  match qs with
  | [] => ScanDone [] next
  | (k, q) :: rest =>
      match Peek q with
      | None =>
          if finished q then scan last next rest
          else ScanBlocked ((k, q) :: rest) k
      | Some d =>
          let c := pick next k q d in
          if last <=? GetTime (next_data c)
          then keep (k, q) (scan last (Some c) rest)
          else ScanFatal
      end
  end.

(** ** OrderedMultiQueue::Dispatch: one turn of the while loop *)

Inductive IterResult : Type :=
  | Again (s : State)      (* the loop body ran to its end *)
  | Halt (s : State)       (* return *)
  | Abort (e : Error).

(** [next_queue->callback(next_queue->queue.Pop())], preceded by the
    update of last_dispatched_time_. *)
Definition dispatch_front (c : Candidate) (s : State) : IterResult :=
  match map_pop (next_queue_key c) (queues_ s) with
  | None => Abort Hang
  | Some qs =>
      Again (emit (Delivered (next_queue_key c) (next_data c))
              (set_queues qs
                (set_last_dispatched_time (GetTime (next_data c)) s)))
  end.

Definition Dispatch_iteration (s : State) : IterResult :=
  match scan (last_dispatched_time_ s) None (queues_ s) with
  | ScanFatal => Abort CheckFailed
  | ScanBlocked qs k => Halt (CannotMakeProgress k (set_queues qs s))
  | ScanDone qs None =>
      match qs with
      | [] => Halt (set_queues qs s)
      | _ :: _ => Abort CheckFailed
      end
  | ScanDone qs (Some c) =>
      match GetCommonStartTime (trajectory_id (next_queue_key c))
                               (set_queues qs s) with
      | Err e => Abort e
      | Ok (common_start_time, s1) =>
          if common_start_time <=? GetTime (next_data c) then
            dispatch_front c s1
          else if Size (next_queue c) <? 2 then
            if negb (finished (next_queue c)) then
              Halt (CannotMakeProgress (next_queue_key c) s1)
            else dispatch_front c s1
          else
            match map_pop (next_queue_key c) (queues_ s1),
                  Pop (next_queue c) with
            | Some qs', Some (_, q') =>
                match Peek q' with
                | None => Abort NullDereference
                | Some d' =>
                    if common_start_time <? GetTime d' then
                      Again (emit (Delivered (next_queue_key c) (next_data c))
                              (set_queues qs'
                                (set_last_dispatched_time
                                   (GetTime (next_data c)) s1)))
                    else
                      Again (emit (Dropped (next_queue_key c) (next_data c))
                              (set_queues qs' s1))
                end
            | _, _ => Abort Hang
            end
      end
  end.

(** ** OrderedMultiQueue::Dispatch: the while (true) loop

    Every turn that does not return pops one item, so the number of
    queued items bounds the number of turns. *)
Definition pending_count (qs : Queues) : nat :=
  sum_list (map (fun e => length (queue (snd e))) qs).

Fixpoint Dispatch_loop (fuel : nat) (s : State) : Result State :=
  match fuel with
  | O => Err Hang
  | S fuel' =>
      match Dispatch_iteration s with
      | Again s' => Dispatch_loop fuel' s'
      | Halt s' => Ok s'
      | Abort e => Err e
      end
  end.

Definition Dispatch (s : State) : Result State :=
  Dispatch_loop (S (pending_count (queues_ s))) s.

(** ** The public member functions *)

Definition AddQueue (queue_key : QueueKey) (s : State) : Result State :=
  match map_find queue_key (queues_ s) with
  | Some _ => Err CheckFailed
  | None => Ok (set_queues (map_insert queue_key Queue_default (queues_ s)) s)
  end.

Definition MarkQueueAsFinished (queue_key : QueueKey) (s : State) : Result State :=
  match map_find queue_key (queues_ s) with
  | None => Err CheckFailed
  | Some q =>
      if finished q then Err CheckFailed
      else Dispatch (set_queues (map_adjust set_finished queue_key (queues_ s)) s)
  end.

Definition Add (queue_key : QueueKey) (data : Data) (s : State) : Result State :=
  match map_find queue_key (queues_ s) with
  | None => Ok s
  | Some _ =>
      Dispatch (set_queues (map_adjust (Push data) queue_key (queues_ s)) s)
  end.

Definition unfinished_queues (qs : Queues) : list QueueKey :=
  fst <$> filter (fun e => finished (snd e) = false) qs.

Fixpoint MarkQueuesAsFinished (ks : list QueueKey) (s : State) : Result State :=
  match ks with
  | [] => Ok s
  | k :: rest => bind (MarkQueueAsFinished k s) (MarkQueuesAsFinished rest)
  end.

Definition Flush (s : State) : Result State :=
  MarkQueuesAsFinished (unfinished_queues (queues_ s)) s.

Definition GetBlocker (s : State) : Result QueueKey :=
  match queues_ s with
  | [] => Err CheckFailed
  | _ :: _ => Ok (blocker_ s)
  end.

(** OrderedMultiQueue::~OrderedMultiQueue(): every queue still in the map
    must be finished. *)
Definition Destructor (s : State) : Result unit :=
  if forallb (fun e => finished (snd e)) (queues_ s) then Ok tt
  else Err CheckFailed.

(** ** Sequences of calls *)

Inductive Op : Type :=
  | OpAddQueue (k : QueueKey)
  | OpAdd (k : QueueKey) (d : Data)
  | OpMarkQueueAsFinished (k : QueueKey)
  | OpFlush
  | OpGetBlocker.

#[global] Instance Op_eq_dec : EqDecision Op.
Proof. solve_decision. Defined.

Definition run_op (op : Op) (s : State) : Result State :=
  match op with
  | OpAddQueue k => AddQueue k s
  | OpAdd k d => Add k d s
  | OpMarkQueueAsFinished k => MarkQueueAsFinished k s
  | OpFlush => Flush s
  | OpGetBlocker => bind (GetBlocker s) (fun _ => Ok s)
  end.

Fixpoint run (ops : list Op) (s : State) : Result State :=
  match ops with
  | [] => Ok s
  | op :: rest => bind (run_op op s) (run rest)
  end.

(** What the sinks have received, and what was destroyed instead. *)
Definition deliveries (s : State) : list (QueueKey * Data) :=
  omap (fun e => match e with Delivered k d => Some (k, d) | Dropped _ _ => None end)
       (trace s).
Definition drops (s : State) : list (QueueKey * Data) :=
  omap (fun e => match e with Dropped k d => Some (k, d) | Delivered _ _ => None end)
       (trace s).

(** ** Predicates used in the statements *)

(** The time stamps handed to the sinks, in the order of the calls. *)
Definition delivery_times (s : State) : list Time :=
  (fun e => GetTime (snd e)) <$> deliveries s.

(** Every item waiting in some queue, with the key of its queue. *)
Definition pending_items (qs : Queues) : list (QueueKey * Data) :=
  flat_map (fun e => map (pair (fst e)) (queue (snd e))) qs.

Definition event_item (e : Event) : QueueKey * Data :=
  match e with
  | Delivered k d => (k, d)
  | Dropped k d => (k, d)
  end.

(** std::map keeps one entry per key. *)
Definition unique_keys (qs : Queues) : Prop := NoDup (fst <$> qs).

(** What the scan may do to the map: erase entries that are finished and
    empty, and nothing else. *)
Inductive erased : Queues -> Queues -> Prop :=
  | erased_nil : erased [] []
  | erased_keep e qs qs' : erased qs qs' -> erased (e :: qs) (e :: qs')
  | erased_drop k q qs qs' :
      queue q = [] -> finished q = true -> erased qs qs' ->
      erased ((k, q) :: qs) qs'.

(** The candidate is an entry of the map and its data is that entry's
    front item. *)
Definition fronted (c : Candidate) (qs : Queues) : Prop :=
  (next_queue_key c, next_queue c) ∈ qs /\
  Peek (next_queue c) = Some (next_data c).

(** The front items the scan looks at: the iterator stops at the first
    queue that is empty and not finished. *)
Fixpoint scanned_heads (qs : Queues) : list Data :=
  match qs with
  | [] => []
  | (_, q) :: rest =>
      match Peek q with
      | Some d => d :: scanned_heads rest
      | None => if finished q then scanned_heads rest else []
      end
  end.

(** The state a turn of the loop leaves behind, if it leaves one. *)
Definition iter_state (r : IterResult) : option State :=
  match r with
  | Again s => Some s
  | Halt s => Some s
  | Abort _ => None
  end.

(** The turns of the loop, by the path taken through its body.  Every
    turn of [Dispatch_iteration] is one of these (lemma
    [Dispatch_iteration_cases]). *)
Inductive iteration (s : State) : IterResult -> Prop :=
  | iteration_fatal :
      scan (last_dispatched_time_ s) None (queues_ s) = ScanFatal ->
      iteration s (Abort CheckFailed)
  | iteration_blocked qs k :
      scan (last_dispatched_time_ s) None (queues_ s) = ScanBlocked qs k ->
      iteration s (Halt (CannotMakeProgress k (set_queues qs s)))
  | iteration_empty :
      scan (last_dispatched_time_ s) None (queues_ s) = ScanDone [] None ->
      iteration s (Halt (set_queues [] s))
  | iteration_dispatch qs c common_start_time s1 qs2 :
      scan (last_dispatched_time_ s) None (queues_ s) = ScanDone qs (Some c) ->
      GetCommonStartTime (trajectory_id (next_queue_key c)) (set_queues qs s)
        = Ok (common_start_time, s1) ->
      common_start_time <= GetTime (next_data c) \/
        (Size (next_queue c) < 2 /\ finished (next_queue c) = true) ->
      map_pop (next_queue_key c) (queues_ s1) = Some qs2 ->
      iteration s
        (Again (emit (Delivered (next_queue_key c) (next_data c))
                 (set_queues qs2
                   (set_last_dispatched_time (GetTime (next_data c)) s1))))
  | iteration_undecided qs c common_start_time s1 :
      scan (last_dispatched_time_ s) None (queues_ s) = ScanDone qs (Some c) ->
      GetCommonStartTime (trajectory_id (next_queue_key c)) (set_queues qs s)
        = Ok (common_start_time, s1) ->
      GetTime (next_data c) < common_start_time ->
      Size (next_queue c) < 2 ->
      finished (next_queue c) = false ->
      iteration s (Halt (CannotMakeProgress (next_queue_key c) s1))
  | iteration_straddle qs c common_start_time s1 qs2 d' rest :
      scan (last_dispatched_time_ s) None (queues_ s) = ScanDone qs (Some c) ->
      GetCommonStartTime (trajectory_id (next_queue_key c)) (set_queues qs s)
        = Ok (common_start_time, s1) ->
      GetTime (next_data c) < common_start_time ->
      queue (next_queue c) = next_data c :: d' :: rest ->
      common_start_time < GetTime d' ->
      map_pop (next_queue_key c) (queues_ s1) = Some qs2 ->
      iteration s
        (Again (emit (Delivered (next_queue_key c) (next_data c))
                 (set_queues qs2
                   (set_last_dispatched_time (GetTime (next_data c)) s1))))
  | iteration_drop qs c common_start_time s1 qs2 d' rest :
      scan (last_dispatched_time_ s) None (queues_ s) = ScanDone qs (Some c) ->
      GetCommonStartTime (trajectory_id (next_queue_key c)) (set_queues qs s)
        = Ok (common_start_time, s1) ->
      GetTime (next_data c) < common_start_time ->
      queue (next_queue c) = next_data c :: d' :: rest ->
      GetTime d' <= common_start_time ->
      map_pop (next_queue_key c) (queues_ s1) = Some qs2 ->
      iteration s
        (Again (emit (Dropped (next_queue_key c) (next_data c))
                 (set_queues qs2 s1))).

(** The sinks have seen non-decreasing time stamps, none of them later
    than last_dispatched_time_. *)
Definition monotone_output (s : State) : Prop :=
  StronglySorted Z.le (delivery_times s) /\
  Forall (fun t => t <= last_dispatched_time_ s) (delivery_times s).

(** [s'] comes after [s]: last_dispatched_time_ has not gone back and
    the output is still monotone if it was. *)
Definition advances (s s' : State) : Prop :=
  last_dispatched_time_ s <= last_dispatched_time_ s' /\
  (monotone_output s -> monotone_output s').

(** [t] is the latest front time among the queues of trajectory [traj]. *)
Definition is_latest_front (traj : Z) (qs : Queues) (t : Time) : Prop :=
  (exists k q d, (k, q) ∈ qs /\ trajectory_id k = traj /\
                 Peek q = Some d /\ GetTime d = t) /\
  (forall k q d, (k, q) ∈ qs -> trajectory_id k = traj ->
                 Peek q = Some d -> GetTime d <= t).

(** The item behind the front of [q] is strictly later than [t]. *)
Definition straddles (t : Time) (q : Queue) : Prop :=
  exists d d' rest, queue q = d :: d' :: rest /\ t < GetTime d'.

(** A destroyed item was older than the common start time cached for
    its trajectory. *)
Definition cold_drop (cache : gmap Z Time) (e : Event) : Prop :=
  match e with
  | Delivered _ _ => True
  | Dropped k d =>
      exists t, cache !! trajectory_id k = Some t /\ GetTime d < t
  end.

(** From [s] to [s'] every item that left a queue shows up in the trace,
    handed to the sink of its queue or destroyed by the start-up rule. *)
Definition accounts (s s' : State) : Prop :=
  common_start_time_per_trajectory_ s ⊆ common_start_time_per_trajectory_ s' /\
  exists new,
    trace s' = trace s ++ new /\
    pending_items (queues_ s) ≡ₚ
      (event_item <$> new) ++ pending_items (queues_ s') /\
    Forall (cold_drop (common_start_time_per_trajectory_ s')) new.

(** What holds between calls: one entry per key, and a map in which
    every queue is finished is empty. *)
Definition settled (s : State) : Prop :=
  unique_keys (queues_ s) /\
  (unfinished_queues (queues_ s) = [] -> queues_ s = []).

(** What Dispatch and its turns keep and account for, as long as the map
    has one entry per key. *)
Definition carries (s s' : State) : Prop :=
  unique_keys (queues_ s) ->
  unique_keys (queues_ s') /\
  unfinished_queues (queues_ s') = unfinished_queues (queues_ s) /\
  accounts s s'.

(** ** Readings of the specification that the code does not bear out *)

(** The reading of GetBlocker as fatal only before any registration:
    after a run from the initial state GetBlocker fails exactly when the
    run contains no AddQueue. *)
Definition GetBlocker_fatal_iff_never_registered : Prop :=
  forall ops s, run ops init = Ok s ->
    (GetBlocker s = Err CheckFailed <-> forall k, OpAddQueue k ∉ ops).


(** The reading of the start-up rule with two cases only: an item handed
    to its sink is at or after the common start time of its trajectory,
    or the item behind it in its queue is strictly after it. *)
Definition delivered_warm_or_straddling : Prop :=
  forall s s' k d,
    Dispatch_iteration s = Again s' ->
    trace s' = trace s ++ [Delivered k d] ->
    exists t q,
      common_start_time_per_trajectory_ s' !! trajectory_id k = Some t /\
      (k, q) ∈ queues_ s /\ Peek q = Some d /\
      (t <= GetTime d \/ straddles t q).

(** ** The scenarios of the specification *)

Definition keyA : QueueKey := mkQueueKey 0 "A".
Definition keyB : QueueKey := mkQueueKey 0 "B".
Definition keyC : QueueKey := mkQueueKey 0 "C".
Definition item (t : Time) : Data := mkData t 0.

Definition state_of (r : Result State) : State :=
  match r with
  | Ok s => s
  | Err _ => init
  end.

(** All ways of merging two sequences of calls, each keeping its order. *)
Fixpoint interleavings (xs ys : list Op) : list (list Op) :=
  match xs with
  | [] => [ys]
  | x :: xs' =>
      (fix inner (ys : list Op) : list (list Op) :=
         match ys with
         | [] => [x :: xs']
         | y :: ys' =>
             map (cons x) (interleavings xs' (y :: ys')) ++
             map (cons y) (inner ys')
         end) ys
  end.

(** What a run shows from outside: the trace, the common start time of
    trajectory 0 and the queues left in the map. *)
Definition outcome (ops : list Op)
  : option (list Event * option Time * Queues) :=
  match run ops init with
  | Ok s => Some (trace s, common_start_time_per_trajectory_ s !! 0, queues_ s)
  | Err _ => None
  end.

(** S1: two streams, interleaved. *)
Definition S1_first : list Op :=
  [OpAddQueue keyA; OpAddQueue keyB;
   OpAdd keyA (item 10); OpAdd keyB (item 20)].
Definition S1_second : list Op :=
  [OpAdd keyA (item 30); OpAdd keyB (item 40); OpFlush].
Definition S1_mid : State := Eval vm_compute in state_of (run S1_first init).
Definition S1_end : State := Eval vm_compute in state_of (run S1_second S1_mid).

(** S2: cold-path drop. *)
Definition S2_register : list Op := [OpAddQueue keyA; OpAddQueue keyB].
Definition S2_pushes_A : list Op :=
  [OpAdd keyA (item 1); OpAdd keyA (item 2); OpAdd keyA (item 3);
   OpAdd keyA (item 100)].
Definition S2_pushes_B : list Op :=
  [OpAdd keyB (item 50); OpAdd keyB (item 60)].
Definition S2_finishes : list (list Op) :=
  [[OpMarkQueueAsFinished keyA; OpMarkQueueAsFinished keyB];
   [OpMarkQueueAsFinished keyB; OpMarkQueueAsFinished keyA];
   [OpFlush]].
Definition S2_trace : list Event :=
  [Dropped keyA (item 1); Dropped keyA (item 2);
   Delivered keyA (item 3); Delivered keyB (item 50);
   Delivered keyB (item 60); Delivered keyA (item 100)].

(** S3: thin finished stream. *)
Definition S3_ops : list Op :=
  [OpAddQueue keyA; OpAddQueue keyB;
   OpAdd keyA (item 5); OpMarkQueueAsFinished keyA;
   OpAdd keyB (item 10); OpAdd keyB (item 20)].

(** Queue A holds one item and is finished, queue B blocks. *)
Definition finished_A : State :=
  Eval vm_compute in
    state_of (run [OpAddQueue keyA; OpAddQueue keyB; OpAdd keyA (item 5);
                   OpMarkQueueAsFinished keyA] init).

(** The state in which scenario S3 finishes stream A, as Dispatch finds
    it once stream B has its first item. *)
Definition S3_state : State :=
  mkState [(keyA, mkQueue [item 5] true); (keyB, mkQueue [item 10] false)]
          Time_min ∅ keyB [].

(** The turn of the loop on [S3_state] hands A@5 to its sink. *)
Definition S3_after : State :=
  mkState [(keyA, mkQueue [] true); (keyB, mkQueue [item 10] false)]
          5 {[ 0 := 10 ]} keyB [Delivered keyA (item 5)].

(** Two unfinished streams with one item each. *)
Definition thin_state : State :=
  mkState [(keyA, mkQueue [item 5] false); (keyB, mkQueue [item 10] false)]
          Time_min ∅ keyB [].

(** A backlog for Flush: trajectory 0 has its common start time 10,
    queue C registered later blocks the scan, and queue B has piled up
    three items older than the common start time. *)
Definition backlog_ops : list Op :=
  [OpAddQueue keyA; OpAddQueue keyB; OpAdd keyA (item 10); OpAdd keyB (item 1);
   OpAddQueue keyC; OpAdd keyB (item 2); OpAdd keyB (item 3)].
Definition backlog : State := Eval vm_compute in state_of (run backlog_ops init).
Definition backlog_flushed : State := Eval vm_compute in state_of (Flush backlog).

(** ** Predicates of the further properties *)

(** The order of the keys of the std::map. *)
Definition key_lt (a b : QueueKey) : Prop := key_ltb a b = true.

(** The entries of the map stand in strictly increasing key order. *)
Definition sorted_keys (qs : Queues) : Prop :=
  StronglySorted key_lt (fst <$> qs).

(** Every front item of [qs] is at least as late as [t]. *)
Definition fronts_from (t : Time) (qs : Queues) : Prop :=
  Forall (fun e => forall d, Peek (snd e) = Some d -> t <= GetTime d) qs.

(** Every front item of [qs] is strictly later than [t]. *)
Definition fronts_after (t : Time) (qs : Queues) : Prop :=
  Forall (fun e => forall d, Peek (snd e) = Some d -> t < GetTime d) qs.

(** The items of a queue carry non-decreasing time stamps, none of them
    earlier than [last]. *)
Definition in_order (last : Time) (e : QueueKey * Queue) : Prop :=
  StronglySorted Z.le (GetTime <$> queue (snd e)) /\
  Forall (fun d => last <= GetTime d) (queue (snd e)).

(** Every queue is in order and nothing queued is older than
    last_dispatched_time_: the input the merger is meant for. *)
Definition well_ordered (s : State) : Prop :=
  Forall (in_order (last_dispatched_time_ s)) (queues_ s).

(** The items queued under key [k], front first. *)
Definition stream_items (k : QueueKey) (qs : Queues) : list Data :=
  flat_map (fun e => if decide (fst e = k) then queue (snd e) else []) qs.

(** The items of key [k] that left the merger, in the order of the
    events, delivered or destroyed. *)
Definition stream_events (k : QueueKey) (evs : list Event) : list Data :=
  omap (fun e => if decide (fst (event_item e) = k)
                 then Some (snd (event_item e)) else None) evs.

(** From [s] to [s'] every queue was served front first: what was
    queued under a key, followed by [pushed], is what left under that
    key followed by what is still queued. *)
Definition fifo_with (pushed : QueueKey -> list Data) (s s' : State) : Prop :=
  exists new,
    trace s' = trace s ++ new /\
    forall k, stream_items k (queues_ s) ++ pushed k
              = stream_events k new ++ stream_items k (queues_ s').

Definition serves_fifo (s s' : State) : Prop :=
  unique_keys (queues_ s) ->
  unique_keys (queues_ s') /\ fifo_with (fun _ => []) s s'.

(** The item a call pushes under key [k] in state [s]: the item of an
    Add on [k], if [k] is registered. *)
Definition op_pushes (k : QueueKey) (op : Op) (s : State) : list Data :=
  match op with
  | OpAdd k' d =>
      if decide (k' = k) then
        match map_find k' (queues_ s) with
        | Some _ => [d]
        | None => []
        end
      else []
  | _ => []
  end.

(** The items a run pushes under key [k], in the order of the calls. *)
Fixpoint pushes (k : QueueKey) (ops : list Op) (s : State) : list Data :=
  match ops with
  | [] => []
  | op :: rest =>
      match run_op op s with
      | Ok s' => op_pushes k op s ++ pushes k rest s'
      | Err _ => []
      end
  end.

(** The time stamp handed to a sink last, Time::min() before the first
    delivery. *)
Definition last_delivered (s : State) : Time :=
  default Time_min (last (delivery_times s)).

(** Whatever is stored under key [k] is finished. *)
Definition finished_at (k : QueueKey) (qs : Queues) : Prop :=
  forall q, (k, q) ∈ qs -> finished q = true.

(** The last event of key [k] among [evs]. *)
Definition last_stream_event (k : QueueKey) (evs : list Event) : option Event :=
  last (filter (fun e => fst (event_item e) = k) evs).

(** The last event of key [k] among [evs], if there is one, is a
    delivery. *)
Definition ends_delivered (k : QueueKey) (evs : list Event) : Prop :=
  match last_stream_event k evs with
  | Some (Dropped _ _) => False
  | _ => True
  end.

(** From [s] to [s'] every queue was served front first, and if nothing
    is left under key [k] its last item was not destroyed. *)
Definition serves_to_the_end (k : QueueKey) (s s' : State) : Prop :=
  unique_keys (queues_ s) ->
  unique_keys (queues_ s') /\
  exists new,
    trace s' = trace s ++ new /\
    (forall k0, stream_items k0 (queues_ s)
                = stream_events k0 new ++ stream_items k0 (queues_ s')) /\
    (stream_items k (queues_ s') = [] -> ends_delivered k new).

(** What becomes of an item [d] given to Add under key [k], whose queue
    is [q], in state [s]: Add returns; the item stands at the back of
    the queue of [k] and is served after the items before it; and a
    Flush after the Add returns with the items of [q] followed by [d]
    gone out under key [k], [d] last of all and handed to the sink. *)
Definition Add_outcome (s : State) (k : QueueKey) (d : Data) (q : Queue) : Prop :=
  exists s' s'' new1 new,
    Add k d s = Ok s' /\
    trace s' = trace s ++ new1 /\
    queue q ++ [d] = stream_events k new1 ++ stream_items k (queues_ s') /\
    Flush s' = Ok s'' /\
    trace s'' = trace s ++ new /\
    stream_events k new = queue q ++ [d] /\
    last_stream_event k new = Some (Delivered k d).

(** * Properties *)

(** ** The map operations *)

Lemma erased_refl qs : erased qs qs.
Proof. induction qs; constructor; auto. Qed.

Lemma erased_trans qs1 qs2 qs3 :
  erased qs1 qs2 -> erased qs2 qs3 -> erased qs1 qs3.
Proof.
  intros H12. revert qs3.
  induction H12; intros qs3 H23.
  - assumption.
  - inversion H23; subst.
    + apply erased_keep; auto.
    + apply erased_drop; auto.
  - apply erased_drop; auto.
Qed.

Lemma erased_sublist qs qs' : erased qs qs' -> qs' `sublist_of` qs.
Proof.
  induction 1; [constructor | by apply sublist_skip | by apply sublist_cons].
Qed.

Lemma erased_pending_items qs qs' :
  erased qs qs' -> pending_items qs' = pending_items qs.
Proof.
  induction 1 as [|e qs qs' _ IH|k q qs qs' Hq _ _ IH]; simpl.
  - reflexivity.
  - by rewrite IH.
  - by rewrite Hq.
Qed.

Lemma erased_pending_count qs qs' :
  erased qs qs' -> pending_count qs' = pending_count qs.
Proof.
  unfold pending_count.
  induction 1 as [|e qs qs' _ IH|k q qs qs' Hq _ _ IH]; simpl.
  - reflexivity.
  - by rewrite IH.
  - by rewrite Hq.
Qed.

Lemma erased_unfinished qs qs' :
  erased qs qs' -> unfinished_queues qs' = unfinished_queues qs.
Proof.
  unfold unfinished_queues.
  induction 1 as [|e qs qs' _ IH|k q qs qs' _ Hf _ IH].
  - reflexivity.
  - rewrite !filter_cons. destruct (decide _); csimpl; by rewrite IH.
  - rewrite filter_cons. simpl. rewrite decide_False; [done | by rewrite Hf].
Qed.

Lemma erased_unique_keys qs qs' :
  erased qs qs' -> unique_keys qs -> unique_keys qs'.
Proof.
  unfold unique_keys. intros He Hn.
  eapply sublist_NoDup; [exact Hn|]. by apply fmap_sublist, erased_sublist.
Qed.

Lemma erased_elem_of qs qs' e : erased qs qs' -> e ∈ qs' -> e ∈ qs.
Proof. intros He Hin. eapply elem_of_sublist; eauto using erased_sublist. Qed.

(** ** The scan *)

Lemma scan_cons last next k q rest :
  scan last next ((k, q) :: rest) =
  match queue q with
  | [] =>
      if finished q then scan last next rest
      else ScanBlocked ((k, q) :: rest) k
  | d :: _ =>
      if last <=? GetTime (next_data (pick next k q d))
      then keep (k, q) (scan last (Some (pick next k q d)) rest)
      else ScanFatal
  end.
Proof. simpl. unfold Peek. by destruct (queue q). Qed.

Lemma keep_done e r qs' n :
  keep e r = ScanDone qs' n -> exists qs'', qs' = e :: qs'' /\ r = ScanDone qs'' n.
Proof. destruct r; simpl; intros H; inversion H; eauto. Qed.

Lemma keep_blocked e r qs' b :
  keep e r = ScanBlocked qs' b ->
  exists qs'', qs' = e :: qs'' /\ r = ScanBlocked qs'' b.
Proof. destruct r; simpl; intros H; inversion H; eauto. Qed.

Lemma keep_fatal e r : keep e r = ScanFatal <-> r = ScanFatal.
Proof. destruct r; simpl; split; congruence. Qed.

(** Walks one entry of the scan: splits on the front of the queue, the
    finished flag and the CHECK_LE. *)
Ltac scan_entry H q :=
  rewrite scan_cons in H;
  let d := fresh "d" in
  let tl := fresh "tl" in
  let Hq := fresh "Hq" in
  let Hf := fresh "Hf" in
  let Hle := fresh "Hle" in
  destruct (queue q) as [|d tl] eqn:Hq;
  [ destruct (finished q) eqn:Hf
  | match type of H with
    | context [?a <=? ?b] => destruct (Z.leb_spec0 a b) as [Hle|Hle]
    end ].

Lemma pick_time next k q d :
  GetTime (next_data (pick next k q d)) <= GetTime d.
Proof.
  unfold pick. destruct next as [c|]; simpl; [|lia].
  destruct (Z.ltb_spec0 (GetTime d) (GetTime (next_data c))); simpl; lia.
Qed.

Lemma pick_time_next c k q d :
  GetTime (next_data (pick (Some c) k q d)) <= GetTime (next_data c).
Proof.
  unfold pick.
  destruct (Z.ltb_spec0 (GetTime d) (GetTime (next_data c))); simpl; lia.
Qed.

Lemma pick_cases next k q d :
  pick next k q d = mkCandidate d q k \/ next = Some (pick next k q d).
Proof.
  unfold pick. destruct next as [c|]; [|by left].
  destruct (GetTime d <? GetTime (next_data c)); [by left | by right].
Qed.

(** The smaller of two front times is at least [last] exactly when the
    newly seen one is, as long as the running minimum already was. *)
Lemma pick_check last next k q d :
  (forall c, next = Some c -> last <= GetTime (next_data c)) ->
  last <= GetTime (next_data (pick next k q d)) <-> last <= GetTime d.
Proof.
  intros Hnext. unfold pick. destruct next as [c|]; simpl; [|done].
  specialize (Hnext c eq_refl).
  destruct (Z.ltb_spec0 (GetTime d) (GetTime (next_data c))); simpl; lia.
Qed.

Lemma scan_done_erased last next qs qs' n :
  scan last next qs = ScanDone qs' n -> erased qs qs'.
Proof.
  revert next qs'. induction qs as [|[k q] rest IH]; intros next qs' H.
  - inversion H. constructor.
  - scan_entry H q; try discriminate.
    + eapply erased_drop; eauto.
    + apply keep_done in H as (qs'' & -> & H). apply erased_keep; eauto.
Qed.

Lemma scan_blocked_erased last next qs qs' b :
  scan last next qs = ScanBlocked qs' b -> erased qs qs'.
Proof.
  revert next qs'. induction qs as [|[k q] rest IH]; intros next qs' H.
  - inversion H.
  - scan_entry H q; try discriminate.
    + eapply erased_drop; eauto.
    + inversion H. apply erased_refl.
    + apply keep_blocked in H as (qs'' & -> & H). apply erased_keep; eauto.
Qed.

(** Line 134: the scan returns early only at a queue that is empty and
    not finished. *)
Lemma scan_blocked_inv last next qs qs' b :
  scan last next qs = ScanBlocked qs' b ->
  exists q, (b, q) ∈ qs' /\ queue q = [] /\ finished q = false.
Proof.
  revert next qs'. induction qs as [|[k q] rest IH]; intros next qs' H.
  - inversion H.
  - scan_entry H q; try discriminate.
    + eauto.
    + inversion H; subst. exists q. split; [left | done].
    + apply keep_blocked in H as (qs'' & -> & H).
      destruct (IH _ _ H) as (q' & Hin & Hq' & Hf'). exists q'.
      split; [by right | done].
Qed.

(** After a complete scan no queue of the map is empty. *)
Lemma scan_done_nonempty last next qs qs' n :
  scan last next qs = ScanDone qs' n ->
  Forall (fun e => queue (snd e) <> []) qs'.
Proof.
  revert next qs'. induction qs as [|[k q] rest IH]; intros next qs' H.
  - inversion H. constructor.
  - scan_entry H q; try discriminate.
    + eauto.
    + apply keep_done in H as (qs'' & -> & H).
      constructor; [simpl; congruence | eauto].
Qed.

(** What a complete scan returns: nothing was seen and the candidate is
    the one it started with, or the candidate passed the CHECK_LE and is
    either the initial one or an entry of the map with its front item. *)
Lemma scan_done_inv last next qs qs' n :
  scan last next qs = ScanDone qs' n ->
  (qs' = [] /\ n = next) \/
  (exists c, n = Some c /\ last <= GetTime (next_data c) /\
             (next = Some c \/ fronted c qs')).
Proof.
  revert next qs'. induction qs as [|[k q] rest IH]; intros next qs' H.
  - inversion H. by left.
  - scan_entry H q; try discriminate.
    + eauto.
    + apply keep_done in H as (qs'' & -> & H). right.
      destruct (IH _ _ H) as [[-> ->]|(c & -> & Hc & Hfrom)].
      * eexists; split; [done|]. split; [done|].
        destruct (pick_cases next k q d) as [Hp|Hp]; [right | by left].
        rewrite Hp. split; simpl; [left | unfold Peek; by rewrite Hq].
      * exists c. split; [done|]. split; [done|].
        destruct Hfrom as [Hfrom|[Hin Hpeek]].
        -- injection Hfrom as <-.
           destruct (pick_cases next k q d) as [Hp|Hp]; [right | by left].
           rewrite Hp. split; simpl; [left | unfold Peek; by rewrite Hq].
        -- right. split; [by right | done].
Qed.

(** The candidate of a complete scan has the smallest front time. *)
Lemma scan_done_min last next qs qs' c :
  scan last next qs = ScanDone qs' (Some c) ->
  Forall (fun e => forall d, Peek (snd e) = Some d ->
                   GetTime (next_data c) <= GetTime d) qs' /\
  (forall c0, next = Some c0 -> GetTime (next_data c) <= GetTime (next_data c0)).
Proof.
  revert next qs'. induction qs as [|[k q] rest IH]; intros next qs' H.
  - inversion H; subst. split; [constructor|]. intros c0 [= ->]. lia.
  - scan_entry H q; try discriminate.
    + eauto.
    + apply keep_done in H as (qs'' & -> & H).
      destruct (IH _ _ H) as [Hall Hnext].
      specialize (Hnext _ eq_refl). split.
      * constructor; [|done]. simpl. unfold Peek. rewrite Hq. intros ? [= <-].
        pose proof (pick_time next k q d). lia.
      * intros c0 ->. pose proof (pick_time_next c0 k q d). lia.
Qed.

Lemma scan_none last qs qs' :
  scan last None qs = ScanDone qs' None -> qs' = [].
Proof.
  intros H. apply scan_done_inv in H as [[-> _]|(c & [=] & _)]. done.
Qed.

Lemma scan_some last qs qs' c :
  scan last None qs = ScanDone qs' (Some c) ->
  fronted c qs' /\ last <= GetTime (next_data c).
Proof.
  intros H. apply scan_done_inv in H as [[_ [=]]|(c' & [= <-] & Hc & [[=]|Hf])].
  done.
Qed.

(** ** Popping and the common start time after a complete scan *)

Lemma map_pop_is_Some k q qs :
  (k, q) ∈ qs -> Forall (fun e => queue (snd e) <> []) qs ->
  is_Some (map_pop k qs).
Proof.
  induction qs as [|[k' q'] rest IH]; intros Hin Hall.
  - by apply elem_of_nil in Hin.
  - apply Forall_cons in Hall as [Hq' Hall]. simpl in *.
    destruct (decide (k = k')) as [->|Hne].
    + unfold Pop. destruct (queue q'); [done | eauto].
    + apply elem_of_cons in Hin as [[= -> ->]|Hin]; [done|].
      destruct (IH Hin Hall) as [rest' ->]. eauto.
Qed.

Lemma map_pop_keys k qs qs' :
  map_pop k qs = Some qs' -> fst <$> qs' = fst <$> qs.
Proof.
  revert qs'. induction qs as [|[k' q'] rest IH]; intros qs' H; simpl in H.
  - discriminate.
  - destruct (decide (k = k')).
    + unfold Pop in H. destruct (queue q'); inversion H. done.
    + destruct (map_pop k rest) eqn:Hr; inversion H. csimpl. by rewrite (IH _ eq_refl).
Qed.

Lemma map_pop_pending_count k qs qs' :
  map_pop k qs = Some qs' -> pending_count qs = S (pending_count qs').
Proof.
  unfold pending_count.
  revert qs'. induction qs as [|[k' q'] rest IH]; intros qs' H; simpl in H.
  - discriminate.
  - destruct (decide (k = k')).
    + unfold Pop in H. destruct (queue q') eqn:Hq; inversion H.
      simpl. by rewrite Hq.
    + destruct (map_pop k rest) eqn:Hr; inversion H. simpl.
      rewrite (IH _ eq_refl). lia.
Qed.

Lemma map_pop_unfinished k qs qs' :
  map_pop k qs = Some qs' -> unfinished_queues qs' = unfinished_queues qs.
Proof.
  unfold unfinished_queues.
  revert qs'. induction qs as [|[k' q'] rest IH]; intros qs' H; simpl in H.
  - discriminate.
  - destruct (decide (k = k')).
    + unfold Pop in H. destruct (queue q') eqn:Hq; inversion H.
      rewrite !filter_cons. simpl. by destruct (decide _).
    + destruct (map_pop k rest) eqn:Hr; inversion H.
      rewrite !filter_cons. simpl. destruct (decide _); csimpl;
        by rewrite (IH _ eq_refl).
Qed.

Lemma latest_front_is_Ok traj acc qs :
  Forall (fun e => queue (snd e) <> []) qs ->
  exists t, latest_front traj acc qs = Ok t.
Proof.
  revert acc. induction qs as [|[k q] rest IH]; intros acc Hall; simpl.
  - eauto.
  - apply Forall_cons in Hall as [Hq Hall]. simpl in Hq.
    destruct (decide _); [|eauto].
    unfold Peek. destruct (queue q); [done | simpl; eauto].
Qed.

(** GetCommonStartTime touches nothing but the cache, and the cache only
    at a trajectory that had no entry. *)
Lemma GetCommonStartTime_inv traj s t s1 :
  GetCommonStartTime traj s = Ok (t, s1) ->
  queues_ s1 = queues_ s /\
  last_dispatched_time_ s1 = last_dispatched_time_ s /\
  blocker_ s1 = blocker_ s /\
  trace s1 = trace s /\
  common_start_time_per_trajectory_ s1 !! traj = Some t /\
  ((common_start_time_per_trajectory_ s !! traj = Some t /\ s1 = s) \/
   (common_start_time_per_trajectory_ s !! traj = None /\
    latest_front traj Time_min (queues_ s) = Ok t /\
    common_start_time_per_trajectory_ s1 =
      <[traj := t]> (common_start_time_per_trajectory_ s))).
Proof.
  unfold GetCommonStartTime.
  destruct (common_start_time_per_trajectory_ s !! traj) as [t0|] eqn:Hc.
  - intros [= <- <-]. repeat split; auto.
  - destruct (latest_front traj Time_min (queues_ s)) as [t0|] eqn:Hl; simpl;
      [|discriminate].
    intros [= <- <-]. simpl. repeat split; auto. apply lookup_insert_eq.
Qed.

Lemma GetCommonStartTime_is_Ok traj s :
  Forall (fun e => queue (snd e) <> []) (queues_ s) ->
  exists t s1, GetCommonStartTime traj s = Ok (t, s1).
Proof.
  intros Hall. unfold GetCommonStartTime.
  destruct (common_start_time_per_trajectory_ s !! traj); [eauto|].
  destruct (latest_front_is_Ok traj Time_min _ Hall) as [t ->]. simpl. eauto.
Qed.

(** ** One turn of the loop *)

(** The turn never waits on an empty queue, never dereferences a null
    [Peek] result, and the CHECK of line 152 never fails: the only abort
    is the CHECK_LE of the scan. *)
Lemma Dispatch_iteration_cases s : iteration s (Dispatch_iteration s).
Proof.
  unfold Dispatch_iteration.
  destruct (scan _ None (queues_ s)) as [|qs k|qs [c|]] eqn:Hscan.
  - by apply iteration_fatal.
  - by apply iteration_blocked.
  - pose proof (scan_done_nonempty _ _ _ _ _ Hscan) as Hne.
    destruct (scan_some _ _ _ _ Hscan) as [[Hin Hpeek] Hlast].
    destruct (GetCommonStartTime_is_Ok (trajectory_id (next_queue_key c))
                (set_queues qs s) Hne) as (cst & s1 & Hcst).
    rewrite Hcst.
    destruct (GetCommonStartTime_inv _ _ _ _ Hcst) as (Hqs & _).
    simpl in Hqs.
    destruct (map_pop_is_Some _ _ _ Hin Hne) as [qs2 Hpop].
    rewrite <- Hqs in Hpop.
    unfold dispatch_front. rewrite Hpop.
    destruct (Z.leb_spec0 cst (GetTime (next_data c))).
    + eapply iteration_dispatch; eauto.
    + destruct (Z.ltb_spec0 (Size (next_queue c)) 2).
      * destruct (finished (next_queue c)) eqn:Hf; simpl.
        -- eapply iteration_dispatch; eauto.
        -- eapply iteration_undecided; eauto. lia.
      * unfold Pop. unfold Peek in Hpeek. unfold Size in *.
        destruct (queue (next_queue c)) as [|d0 [|d' rest]] eqn:Hq;
          simpl in *; try lia.
        injection Hpeek as ->.
        destruct (Z.ltb_spec0 cst (GetTime d')).
        -- eapply iteration_straddle; eauto. lia.
        -- eapply iteration_drop; eauto; lia.
  - apply scan_none in Hscan as Hqs. subst. by apply iteration_empty.
Qed.

(** What a turn that returns leaves behind. *)
Lemma iteration_Halt_effect s s' :
  Dispatch_iteration s = Halt s' ->
  trace s' = trace s /\
  last_dispatched_time_ s' = last_dispatched_time_ s /\
  erased (queues_ s) (queues_ s') /\
  common_start_time_per_trajectory_ s ⊆ common_start_time_per_trajectory_ s' /\
  (queues_ s' = [] \/
   exists q, (blocker_ s', q) ∈ queues_ s' /\ finished q = false /\
     (queue q = [] \/
      exists d t, queue q = [d] /\
        common_start_time_per_trajectory_ s' !! trajectory_id (blocker_ s')
          = Some t /\
        GetTime d < t)).
Proof.
  intros Hit. pose proof (Dispatch_iteration_cases s) as Hc.
  rewrite Hit in Hc. inversion Hc; subst; simpl.
  - match goal with H : scan _ _ _ = _ |- _ =>
      pose proof (scan_blocked_erased _ _ _ _ _ H);
      destruct (scan_blocked_inv _ _ _ _ _ H) as (q & Hin & Hq & Hf)
    end.
    repeat split; auto. right. exists q. auto.
  - match goal with H : scan _ _ _ = _ |- _ =>
      pose proof (scan_done_erased _ _ _ _ _ H) end.
    repeat split; auto.
  - match goal with
    | H : scan _ _ _ = _, G : GetCommonStartTime _ _ = _ |- _ =>
        pose proof (scan_done_erased _ _ _ _ _ H);
        destruct (scan_some _ _ _ _ H) as [[Hin Hpeek] Hlast];
        destruct (GetCommonStartTime_inv _ _ _ _ G)
          as (Hqs & Hl & Hb & Htr & Hlook & Hcache)
    end.
    simpl in *. rewrite Hqs, Hl, Htr. repeat split; auto.
    + destruct Hcache as [[_ ->]|(Hnone & _ & ->)]; [done|].
      by apply insert_subseteq.
    + right. exists (next_queue c). split; [done|]. split; [done|].
      right. unfold Peek, Size in *.
      destruct (queue (next_queue c)) as [|d0 [|? ?]] eqn:Hq;
        simpl in *; try lia; try discriminate.
      injection Hpeek as ->. eauto.
Qed.

(** What a turn that runs to the end of the loop body leaves behind: the
    candidate of the scan has been popped, and was either handed to its
    callback or destroyed. *)
Lemma iteration_Again_effect s s' :
  Dispatch_iteration s = Again s' ->
  exists c qs1 t,
    scan (last_dispatched_time_ s) None (queues_ s) = ScanDone qs1 (Some c) /\
    map_pop (next_queue_key c) qs1 = Some (queues_ s') /\
    common_start_time_per_trajectory_ s ⊆ common_start_time_per_trajectory_ s' /\
    common_start_time_per_trajectory_ s' !! trajectory_id (next_queue_key c)
      = Some t /\
    blocker_ s' = blocker_ s /\
    ((trace s' = trace s ++ [Delivered (next_queue_key c) (next_data c)] /\
      last_dispatched_time_ s' = GetTime (next_data c)) \/
     (trace s' = trace s ++ [Dropped (next_queue_key c) (next_data c)] /\
      last_dispatched_time_ s' = last_dispatched_time_ s /\
      GetTime (next_data c) < t)).
Proof.
  intros Hit. pose proof (Dispatch_iteration_cases s) as Hc.
  rewrite Hit in Hc. inversion Hc; subst;
    match goal with
    | H : scan _ _ _ = _, G : GetCommonStartTime _ _ = _ |- _ =>
        destruct (GetCommonStartTime_inv _ _ _ _ G)
          as (Hqs & Hl & Hb & Htr & Hlook & Hcache);
        assert (common_start_time_per_trajectory_ s
                  ⊆ common_start_time_per_trajectory_ s1)
          by (destruct Hcache as [[_ ->]|(Hnone & _ & ->)];
              [done | by apply insert_subseteq])
    end;
    simpl in *; rewrite Hqs in *; exists c, qs, common_start_time;
    rewrite ?Htr, ?Hl; repeat split; auto.
Qed.

Lemma iteration_Abort s e : Dispatch_iteration s = Abort e -> e = CheckFailed.
Proof.
  intros Hit. pose proof (Dispatch_iteration_cases s) as Hc.
  rewrite Hit in Hc. by inversion Hc.
Qed.

Lemma iteration_Again_pending s s' :
  Dispatch_iteration s = Again s' ->
  pending_count (queues_ s) = S (pending_count (queues_ s')).
Proof.
  intros (c & qs1 & t & Hscan & Hpop & _)%iteration_Again_effect.
  rewrite <- (erased_pending_count _ _ (scan_done_erased _ _ _ _ _ Hscan)).
  by apply map_pop_pending_count in Hpop.
Qed.

(** ** The loop *)

(** The loop returns before its fuel is used up: the queued items bound
    the number of turns. *)
Lemma Dispatch_loop_result fuel s :
  (pending_count (queues_ s) < fuel)%nat ->
  (exists s', Dispatch_loop fuel s = Ok s') \/
  Dispatch_loop fuel s = Err CheckFailed.
Proof.
  revert s. induction fuel as [|fuel IH]; intros s Hlt; [lia|].
  simpl. destruct (Dispatch_iteration s) as [s'|s'|e] eqn:Hit.
  - apply IH. apply iteration_Again_pending in Hit. lia.
  - eauto.
  - apply iteration_Abort in Hit as ->. by right.
Qed.

Lemma Dispatch_result s :
  (exists s', Dispatch s = Ok s') \/ Dispatch s = Err CheckFailed.
Proof. apply Dispatch_loop_result. lia. Qed.

(** A relation that every turn establishes and that is transitive holds
    between the state Dispatch starts from and the state it returns. *)
Lemma Dispatch_loop_rel (R : State -> State -> Prop) :
  (forall s1 s2 s3, R s1 s2 -> R s2 s3 -> R s1 s3) ->
  (forall s s', Dispatch_iteration s = Again s' -> R s s') ->
  (forall s s', Dispatch_iteration s = Halt s' -> R s s') ->
  forall fuel s s', Dispatch_loop fuel s = Ok s' -> R s s'.
Proof.
  intros Htrans Hagain Hhalt. induction fuel as [|fuel IH]; intros s s' H.
  - discriminate.
  - simpl in H. destruct (Dispatch_iteration s) as [s1|s1|e] eqn:Hit.
    + eapply Htrans; [by apply Hagain | by apply IH].
    + injection H as <-. by apply Hhalt.
    + discriminate.
Qed.

(** Dispatch returns from a turn that returns. *)
Lemma Dispatch_loop_last fuel s s' :
  Dispatch_loop fuel s = Ok s' ->
  exists s0, Dispatch_iteration s0 = Halt s'.
Proof.
  revert s. induction fuel as [|fuel IH]; intros s H; [discriminate|].
  simpl in H. destruct (Dispatch_iteration s) as [s1|s1|e] eqn:Hit.
  - eauto.
  - injection H as <-. eauto.
  - discriminate.
Qed.

(** ** Monotone output *)

Lemma delivery_times_Delivered s s' k d :
  trace s' = trace s ++ [Delivered k d] ->
  delivery_times s' = delivery_times s ++ [GetTime d].
Proof.
  intros H. unfold delivery_times, deliveries.
  by rewrite H, omap_app, fmap_app.
Qed.

Lemma delivery_times_Dropped s s' k d :
  trace s' = trace s ++ [Dropped k d] ->
  delivery_times s' = delivery_times s.
Proof.
  intros H. unfold delivery_times, deliveries.
  rewrite H, omap_app, fmap_app. simpl. by rewrite app_nil_r.
Qed.

Lemma delivery_times_same s s' :
  trace s' = trace s -> delivery_times s' = delivery_times s.
Proof. intros H. unfold delivery_times, deliveries. by rewrite H. Qed.

Lemma advances_refl s : advances s s.
Proof. unfold advances. split; [lia | done]. Qed.

Lemma advances_trans s1 s2 s3 :
  advances s1 s2 -> advances s2 s3 -> advances s1 s3.
Proof. unfold advances. intros [? ?] [? ?]. split; [lia | auto]. Qed.

Lemma advances_same s s' :
  trace s' = trace s ->
  last_dispatched_time_ s' = last_dispatched_time_ s ->
  advances s s'.
Proof.
  intros Htr Hl. unfold advances, monotone_output.
  rewrite (delivery_times_same _ _ Htr), Hl. split; [lia | done].
Qed.

Lemma iteration_Again_advances s s' :
  Dispatch_iteration s = Again s' -> advances s s'.
Proof.
  intros (c & qs1 & t & Hscan & _ & _ & _ & _ & Hout)%iteration_Again_effect.
  apply scan_some in Hscan as [_ Hlast].
  destruct Hout as [[Htr Hl]|(Htr & Hl & _)].
  - unfold advances, monotone_output.
    rewrite (delivery_times_Delivered _ _ _ _ Htr), Hl.
    split; [done|]. intros [Hsorted Hbound]. split.
    + apply StronglySorted_app_2; [|done|repeat constructor].
      intros x1 x2 Hx1 ->%list_elem_of_singleton.
      rewrite Forall_forall in Hbound. specialize (Hbound _ Hx1). lia.
    + apply Forall_app. split; [|by repeat constructor].
      eapply Forall_impl; [exact Hbound|]. simpl. intros. lia.
  - unfold advances, monotone_output.
    rewrite (delivery_times_Dropped _ _ _ _ Htr), Hl. split; [lia | done].
Qed.

Lemma iteration_Halt_advances s s' :
  Dispatch_iteration s = Halt s' -> advances s s'.
Proof.
  intros (Htr & Hl & _)%iteration_Halt_effect. by apply advances_same.
Qed.

Lemma Dispatch_advances s s' : Dispatch s = Ok s' -> advances s s'.
Proof.
  apply (Dispatch_loop_rel advances);
    eauto using advances_trans, iteration_Again_advances,
                iteration_Halt_advances.
Qed.

Lemma MarkQueueAsFinished_advances k s s' :
  MarkQueueAsFinished k s = Ok s' -> advances s s'.
Proof.
  unfold MarkQueueAsFinished. intros H.
  destruct (map_find k (queues_ s)) as [q|]; [|discriminate].
  destruct (finished q); [discriminate|].
  apply Dispatch_advances in H.
  eapply advances_trans; [|exact H]. by apply advances_same.
Qed.

Lemma MarkQueuesAsFinished_advances ks s s' :
  MarkQueuesAsFinished ks s = Ok s' -> advances s s'.
Proof.
  revert s. induction ks as [|k ks IH]; intros s H; simpl in H.
  - injection H as <-. apply advances_refl.
  - destruct (MarkQueueAsFinished k s) as [s1|] eqn:Hm; [|discriminate].
    simpl in H. eapply advances_trans; eauto using MarkQueueAsFinished_advances.
Qed.

Lemma run_op_advances op s s' : run_op op s = Ok s' -> advances s s'.
Proof.
  destruct op as [k|k d|k| |]; simpl; intros H.
  - unfold AddQueue in H. destruct (map_find k (queues_ s)); [discriminate|].
    injection H as <-. by apply advances_same.
  - unfold Add in H. destruct (map_find k (queues_ s)).
    + apply Dispatch_advances in H.
      eapply advances_trans; [|exact H]. by apply advances_same.
    + injection H as <-. apply advances_refl.
  - by eapply MarkQueueAsFinished_advances.
  - by eapply MarkQueuesAsFinished_advances.
  - destruct (GetBlocker s); [|discriminate]. injection H as <-.
    apply advances_refl.
Qed.

Lemma run_advances ops s s' : run ops s = Ok s' -> advances s s'.
Proof.
  revert s. induction ops as [|op ops IH]; intros s H; simpl in H.
  - injection H as <-. apply advances_refl.
  - destruct (run_op op s) as [s1|] eqn:Hop; [|discriminate].
    simpl in H. eapply advances_trans; eauto using run_op_advances.
Qed.

Lemma monotone_output_init : monotone_output init.
Proof. split; constructor. Qed.

(** C1: along every sequence of calls that completes without a fatal
    check, the time stamps handed to the sinks are non-decreasing, and
    last_dispatched_time_ never goes back: it is at least as large after
    any further calls as it was before them. *)
Theorem monotone_dispatch ops1 ops2 s1 s2 :
  run ops1 init = Ok s1 ->
  run ops2 s1 = Ok s2 ->
  StronglySorted Z.le (delivery_times s2) /\
  last_dispatched_time_ s1 <= last_dispatched_time_ s2.
Proof.
  intros H1 H2.
  destruct (run_advances _ _ _ H1) as [_ Hm1].
  destruct (run_advances _ _ _ H2) as [Hlast Hm2].
  split; [|done]. apply Hm2, Hm1, monotone_output_init.
Qed.

Lemma monotone_dispatch_witness :
  StronglySorted Z.le (delivery_times S1_end) /\
  last_dispatched_time_ S1_mid <= last_dispatched_time_ S1_end.
Proof.
  apply (monotone_dispatch S1_first S1_second); vm_compute; reflexivity.
Defined.

(** Scenario S1: the four items come out as 10, 20, 30, 40 and
    last_dispatched_time_ ends at 40. *)
Example S1_deliveries :
  delivery_times S1_end = [10; 20; 30; 40] /\
  last_dispatched_time_ S1_end = 40.
Proof. by vm_compute. Qed.

(** ** Scenario S2 *)

(** C2: in scenario S2 (streams A and B of trajectory 0, A pushes 1, 2,
    3, 100, B pushes 50, 60, then both are finished) the common start
    time is 50, items A@1 and A@2 are dropped without being delivered,
    and the sinks receive exactly A@3, B@50, B@60, A@100 in this order;
    this holds however the pushes of the two streams interleave and
    whichever way the streams are finished. *)
Theorem scenario_S2_outcome pushes finish :
  pushes ∈ interleavings S2_pushes_A S2_pushes_B ->
  finish ∈ S2_finishes ->
  outcome (S2_register ++ pushes ++ finish) = Some (S2_trace, Some 50, []).
Proof.
  intros Hp Hf.
  assert (Forall (fun p => Forall (fun f =>
            outcome (S2_register ++ p ++ f) = Some (S2_trace, Some 50, []))
            S2_finishes)
          (interleavings S2_pushes_A S2_pushes_B)) as Hall.
  { repeat (constructor; [repeat (constructor; [by vm_compute|])|]);
      constructor. }
  rewrite Forall_forall in Hall. specialize (Hall _ Hp).
  rewrite Forall_forall in Hall. by apply Hall.
Qed.

Lemma scenario_S2_outcome_witness :
  outcome (S2_register ++ (S2_pushes_A ++ S2_pushes_B) ++
           [OpMarkQueueAsFinished keyA; OpMarkQueueAsFinished keyB])
  = Some (S2_trace, Some 50, []).
Proof.
  apply scenario_S2_outcome; vm_compute; repeat constructor.
Defined.

(** ** The CHECK_LE of the scan *)

Lemma scan_fatal_iff last next qs :
  (forall c, next = Some c -> last <= GetTime (next_data c)) ->
  scan last next qs = ScanFatal <->
  Exists (fun d => GetTime d < last) (scanned_heads qs).
Proof.
  revert next. induction qs as [|[k q] rest IH]; intros next Hnext.
  - simpl. split; [discriminate | by intros ?%Exists_nil].
  - rewrite scan_cons. simpl. unfold Peek.
    destruct (queue q) as [|d tl] eqn:Hq; simpl.
    + destruct (finished q); [by apply IH|].
      split; [discriminate | by intros ?%Exists_nil].
    + pose proof (pick_check last next k q d Hnext) as Hpick.
      rewrite Exists_cons.
      destruct (Z.leb_spec0 last (GetTime (next_data (pick next k q d))))
        as [Hle|Hgt].
      * rewrite keep_fatal, IH; [|by intros ? [= <-]].
        split; [by right | intros [?|?]; [lia | done]].
      * split; [intros _; left; lia | done].
Qed.

(** C4: the scan of Dispatch gets past its CHECK_LE exactly when every
    front item it looks at (the fronts of the queues up to the first one
    that is empty and not finished), and not just the one that ends up as
    candidate, is at least last_dispatched_time_; put the other way, the
    CHECK_LE on the running minimum fails, and with it the turn of
    Dispatch, exactly when some scanned front item is older than
    last_dispatched_time_. *)
Theorem scan_checks_every_head s :
  (scan (last_dispatched_time_ s) None (queues_ s) <> ScanFatal <->
   Forall (fun d => last_dispatched_time_ s <= GetTime d)
          (scanned_heads (queues_ s))) /\
  (Dispatch_iteration s = Abort CheckFailed <->
   Exists (fun d => GetTime d < last_dispatched_time_ s)
          (scanned_heads (queues_ s))).
Proof.
  assert (scan (last_dispatched_time_ s) None (queues_ s) = ScanFatal <->
          Exists (fun d => GetTime d < last_dispatched_time_ s)
                 (scanned_heads (queues_ s))) as Hscan
    by (by apply scan_fatal_iff).
  split.
  - rewrite Hscan, <- Forall_Exists_neg.
    apply Forall_iff. intros d. lia.
  - rewrite <- Hscan. split.
    + intros Hit. pose proof (Dispatch_iteration_cases s) as Hc.
      rewrite Hit in Hc. by inversion Hc.
    + intros Hf. unfold Dispatch_iteration. by rewrite Hf.
Qed.

(** A front item behind the queue the scan returns at is not looked at:
    with A empty and unfinished, the old front of B goes unnoticed. *)
Example scan_stops_at_blocker :
  scan 10 None [(keyA, mkQueue [] false); (keyB, mkQueue [item 5] false)]
  = ScanBlocked [(keyA, mkQueue [] false); (keyB, mkQueue [item 5] false)] keyA.
Proof. reflexivity. Qed.

(** The check comes before the early return: the old front of A is fatal
    although B would have stopped the scan. *)
Example scan_checks_before_blocker :
  scan 10 None [(keyA, mkQueue [item 5] false); (keyB, mkQueue [] false)]
  = ScanFatal.
Proof. reflexivity. Qed.

(** ** No null dereference *)

Lemma Dispatch_Err s e : Dispatch s = Err e -> e = CheckFailed.
Proof.
  intros H. destruct (Dispatch_result s) as [[s' Hs]|Hs]; congruence.
Qed.

(** C9: wherever Dispatch calls GetCommonStartTime, i.e. after a scan
    that ran through the whole map and found a candidate, every queue
    left in the map is non-empty, so the loop of GetCommonStartTime
    dereferences no null Peek result; and no turn of Dispatch, the
    re-peek after the pop of the last branch included, ends in a null
    dereference. *)
Theorem Peek_never_null s :
  (forall qs c,
     scan (last_dispatched_time_ s) None (queues_ s) = ScanDone qs (Some c) ->
     Forall (fun e => Peek (snd e) <> None) qs /\
     exists t s1,
       GetCommonStartTime (trajectory_id (next_queue_key c)) (set_queues qs s)
       = Ok (t, s1)) /\
  Dispatch_iteration s <> Abort NullDereference /\
  Dispatch s <> Err NullDereference.
Proof.
  split; [|split].
  - intros qs c Hscan.
    pose proof (scan_done_nonempty _ _ _ _ _ Hscan) as Hne. split.
    + eapply Forall_impl; [exact Hne|]. intros [k q]. simpl. unfold Peek.
      by destruct (queue q).
    + by apply GetCommonStartTime_is_Ok.
  - by intros ?%iteration_Abort.
  - by intros ?%Dispatch_Err.
Qed.

(** ** GetBlocker *)

Lemma run_app ops1 ops2 s :
  run (ops1 ++ ops2) s = bind (run ops1 s) (run ops2).
Proof.
  revert s. induction ops1 as [|op ops1 IH]; intros s; simpl; [done|].
  destruct (run_op op s); simpl; auto.
Qed.

Lemma run_unregistered ops s s' :
  (forall k, OpAddQueue k ∉ ops) -> queues_ s = [] ->
  run ops s = Ok s' -> queues_ s' = [].
Proof.
  revert s. induction ops as [|op ops IH]; intros s Hno Hqs H; simpl in H.
  - by injection H as <-.
  - assert (forall k, OpAddQueue k ∉ ops) as Hno'
      by (intros k Hin; apply (Hno k); by right).
    destruct op as [k|k d|k| |]; simpl in H.
    + exfalso. apply (Hno k). left.
    + unfold Add in H. rewrite Hqs in H. simpl in H. eauto.
    + unfold MarkQueueAsFinished in H. rewrite Hqs in H. discriminate.
    + unfold Flush in H. rewrite Hqs in H. simpl in H. eauto.
    + unfold GetBlocker in H. rewrite Hqs in H. discriminate.
Qed.

(** Queue A registered and finished right away: Dispatch erases it. *)
Example register_and_finish :
  run [OpAddQueue keyA; OpMarkQueueAsFinished keyA] init
  = Ok (mkState [] Time_min ∅ (mkQueueKey 0 "") []).
Proof. by vm_compute. Qed.

(** C7, as stated, fails: once queue A has been registered, finished and
    erased by Dispatch, the map is empty again and GetBlocker is fatal
    although a queue was registered. *)
Lemma GetBlocker_registered_fatal : ~ GetBlocker_fatal_iff_never_registered.
Proof.
  intros H.
  destruct (H [OpAddQueue keyA; OpMarkQueueAsFinished keyA] _
              register_and_finish) as [Hfatal _].
  apply (Hfatal eq_refl keyA). left.
Qed.

(** C7, amended: GetBlocker returns the blocker recorded last, and it is
    fatal exactly when the map of queues is empty at the time of the
    call: before any queue was registered, and also once every
    registered queue has been erased again.  Whenever a queue is present
    it succeeds. *)
Theorem GetBlocker_fatal_iff_empty s :
  (GetBlocker s = Err CheckFailed <-> queues_ s = []) /\
  (queues_ s <> [] -> GetBlocker s = Ok (blocker_ s)) /\
  (forall ops s', (forall k, OpAddQueue k ∉ ops) ->
                  run ops init = Ok s' -> GetBlocker s' = Err CheckFailed).
Proof.
  split; [|split].
  - unfold GetBlocker. destruct (queues_ s); split; congruence.
  - unfold GetBlocker. destruct (queues_ s); congruence.
  - intros ops s' Hno Hrun. unfold GetBlocker.
    by rewrite (run_unregistered ops init s' Hno eq_refl Hrun).
Qed.

Lemma GetBlocker_fatal_iff_empty_witness :
  GetBlocker S1_mid = Ok (blocker_ S1_mid) /\
  GetBlocker (state_of (run [OpAdd keyA (item 1); OpFlush] init))
  = Err CheckFailed.
Proof.
  split.
  - apply (GetBlocker_fatal_iff_empty S1_mid). vm_compute. discriminate.
  - apply (GetBlocker_fatal_iff_empty init) with (ops := [OpAdd keyA (item 1); OpFlush]).
    + intros k Hin. vm_compute in Hin.
      repeat (apply elem_of_cons in Hin as [Hin|Hin]; [discriminate|]).
      by apply elem_of_nil in Hin.
    + by vm_compute.
Defined.

(** ** Add on a finished queue *)

Lemma map_find_adjust f k qs q :
  map_find k qs = Some q -> map_find k (map_adjust f k qs) = Some (f q).
Proof.
  induction qs as [|[k' q'] rest IH]; simpl; [done|].
  destruct (decide (k = k')) as [->|Hne]; simpl.
  - intros [= ->]. by rewrite decide_True.
  - intros H. rewrite decide_False by done. auto.
Qed.

(** Add reads the map for the key only: whatever the finished flag of
    the queue found, the item goes to the back of that queue, the flag
    is left as it is, and Dispatch runs on the result. *)
Lemma Add_pushes s k d q :
  map_find k (queues_ s) = Some q ->
  Add k d s = Dispatch (set_queues (map_adjust (Push d) k (queues_ s)) s) /\
  map_find k (map_adjust (Push d) k (queues_ s))
    = Some (mkQueue (queue q ++ [d]) (finished q)).
Proof.
  intros Hfind. split.
  - unfold Add. by rewrite Hfind.
  - by rewrite (map_find_adjust _ _ _ _ Hfind).
Qed.

(** The item pushed after the finish is delivered like any other: the
    sinks receive A@5, B@6 and then A@7. *)
Example item_added_after_finish_is_delivered :
  deliveries (state_of (run [OpAdd keyA (item 7); OpAdd keyB (item 6);
                             OpMarkQueueAsFinished keyB] finished_A))
  = [(keyA, item 5); (keyB, item 6); (keyA, item 7)].
Proof. by vm_compute. Qed.

(** ** The blocker *)

(** Two unfinished streams with one item each arise when B receives its
    first item after A has. *)
Example thin_state_reached :
  run [OpAddQueue keyA; OpAddQueue keyB; OpAdd keyA (item 5)] init
  = Ok (mkState [(keyA, mkQueue [item 5] false); (keyB, mkQueue [] false)]
                Time_min ∅ keyB []) /\
  map_adjust (Push (item 10)) keyB
    [(keyA, mkQueue [item 5] false); (keyB, mkQueue [] false)]
  = queues_ thin_state.
Proof. by vm_compute. Qed.





(** ** The start-up rule *)

Example S3_state_delivers : Dispatch_iteration S3_state = Again S3_after.
Proof. by vm_compute. Qed.

(** Scenario S3 as a run: A@5 is delivered although the common start
    time is 10 and queue A never held a second item. *)
Example S3_run :
  outcome (S3_ops ++ [OpFlush])
  = Some ([Delivered keyA (item 5); Delivered keyB (item 10);
           Delivered keyB (item 20)], Some 10, []).
Proof. by vm_compute. Qed.

(** C5, as stated, fails: in scenario S3 the single item A@5 of the
    finished queue A is delivered; it is older than the common start
    time 10 and there is no item behind it. *)
Lemma thin_finished_item_delivered : ~ delivered_warm_or_straddling.
Proof.
  intros H.
  destruct (H S3_state _ keyA (item 5) S3_state_delivers eq_refl)
    as (t & q & Ht & Hin & _ & Hcase).
  vm_compute in Ht. injection Ht as <-.
  simpl in Hin.
  apply elem_of_cons in Hin as [[= ->]|Hin].
  - destruct Hcase as [Hle|(d & d' & rest & Hq & _)].
    + vm_compute in Hle. by apply Hle.
    + discriminate.
  - apply elem_of_cons in Hin as [[=]|Hin]. by apply elem_of_nil in Hin.
Qed.

(** C5, amended: an item handed to its sink, with [t] the common start
    time cached for its trajectory, is at or after [t], or the item
    behind it in its queue is strictly after [t] (the straddling item),
    or its queue is finished and holds no other item. *)
Theorem delivered_warm_straddling_or_last s s' k d :
  Dispatch_iteration s = Again s' ->
  trace s' = trace s ++ [Delivered k d] ->
  exists t q,
    common_start_time_per_trajectory_ s' !! trajectory_id k = Some t /\
    (k, q) ∈ queues_ s /\ Peek q = Some d /\
    (t <= GetTime d \/ straddles t q \/
     (queue q = [d] /\ finished q = true)).
Proof.
  intros Hit Htr. pose proof (Dispatch_iteration_cases s) as Hc.
  rewrite Hit in Hc. inversion Hc; subst; simpl in *;
    match goal with
    | H : scan _ _ _ = _, G : GetCommonStartTime _ _ = _ |- _ =>
        pose proof (scan_done_erased _ _ _ _ _ H) as Her;
        destruct (scan_some _ _ _ _ H) as [[Hin Hpeek] _];
        destruct (GetCommonStartTime_inv _ _ _ _ G)
          as (_ & _ & _ & Htr1 & Hlook & _)
    end;
    rewrite Htr1 in Htr; apply app_inv_head in Htr;
    try discriminate; injection Htr as <- <-;
    exists common_start_time, (next_queue c);
    (split; [done|]); (split; [by eapply erased_elem_of|]); (split; [done|]).
  - match goal with H : _ \/ _ |- _ => destruct H as [?|[Hsz Hf]] end;
      [by left|].
    right. right. split; [|done].
    unfold Size, Peek in *.
    destruct (queue (next_queue c)) as [|d0 [|? ?]]; simpl in *;
      try lia; try discriminate. by injection Hpeek as ->.
  - right. left. unfold straddles. eauto.
Qed.

Lemma delivered_warm_straddling_or_last_witness :
  exists t q,
    common_start_time_per_trajectory_ S3_after !! trajectory_id keyA = Some t /\
    (keyA, q) ∈ queues_ S3_state /\ Peek q = Some (item 5) /\
    (t <= GetTime (item 5) \/ straddles t q \/
     (queue q = [item 5] /\ finished q = true)).
Proof.
  apply (delivered_warm_straddling_or_last S3_state S3_after keyA (item 5));
    by vm_compute.
Defined.

Example S3_state_reached :
  run [OpAddQueue keyA; OpAddQueue keyB; OpAdd keyA (item 5);
       OpMarkQueueAsFinished keyA] init = Ok finished_A /\
  set_queues (map_adjust (Push (item 10)) keyB (queues_ finished_A)) finished_A
  = S3_state.
Proof. by vm_compute. Qed.

(** ** The common start time *)

Lemma latest_front_spec traj acc qs t :
  latest_front traj acc qs = Ok t ->
  acc <= t /\
  (forall k q d, (k, q) ∈ qs -> trajectory_id k = traj ->
                 Peek q = Some d -> GetTime d <= t) /\
  (t = acc \/
   exists k q d, (k, q) ∈ qs /\ trajectory_id k = traj /\
                 Peek q = Some d /\ GetTime d = t).
Proof.
  revert acc. induction qs as [|[k0 q0] rest IH]; intros acc H; simpl in H.
  - injection H as <-. split; [lia|]. split; [|by left].
    intros k q d Hin. by apply elem_of_nil in Hin.
  - destruct (decide (trajectory_id k0 = traj)) as [Htraj|Htraj].
    + destruct (Peek q0) as [d0|] eqn:Hp0; [|discriminate].
      destruct (IH _ H) as (Hacc & Hub & Hatt).
      split; [lia|]. split.
      * intros k q d [[= -> ->]|Hin]%elem_of_cons Hk Hp; [|eauto].
        rewrite Hp0 in Hp. injection Hp as <-. lia.
      * destruct Hatt as [->|(k & q & d & Hin & Hk & Hp & Hd)].
        -- destruct (Z.max_spec acc (GetTime d0)) as [[_ ->]|[_ ->]].
           ++ right. exists k0, q0, d0. split; [left | done].
           ++ by left.
        -- right. exists k, q, d. split; [by right | done].
    + destruct (IH _ H) as (Hacc & Hub & Hatt).
      split; [done|]. split.
      * intros k q d [[= -> ->]|Hin]%elem_of_cons Hk Hp; [done | eauto].
      * destruct Hatt as [->|(k & q & d & Hin & Hk & Hp & Hd)]; [by left|].
        right. exists k, q, d. split; [by right | done].
Qed.

(** What a turn of the loop does to the cache: nothing, or one new entry
    for the trajectory of the candidate, which had none. *)
Lemma iteration_cache s s' :
  iter_state (Dispatch_iteration s) = Some s' ->
  (forall qs c,
     scan (last_dispatched_time_ s) None (queues_ s) = ScanDone qs (Some c) ->
     is_Some (common_start_time_per_trajectory_ s'
                !! trajectory_id (next_queue_key c))) /\
  (common_start_time_per_trajectory_ s' = common_start_time_per_trajectory_ s \/
   exists qs c t,
     scan (last_dispatched_time_ s) None (queues_ s) = ScanDone qs (Some c) /\
     common_start_time_per_trajectory_ s !! trajectory_id (next_queue_key c)
       = None /\
     latest_front (trajectory_id (next_queue_key c)) Time_min qs = Ok t /\
     common_start_time_per_trajectory_ s' =
       <[trajectory_id (next_queue_key c) := t]>
         (common_start_time_per_trajectory_ s)).
Proof.
  intros Hst. pose proof (Dispatch_iteration_cases s) as Hc.
  destruct (Dispatch_iteration s) as [s0|s0|e]; simpl in Hst;
    [injection Hst as -> | injection Hst as -> | discriminate];
    inversion Hc; subst; simpl;
    try (split; [intros; congruence | by left]);
    match goal with
    | H : scan _ _ _ = _, G : GetCommonStartTime _ _ = _ |- _ =>
        destruct (GetCommonStartTime_inv _ _ _ _ G)
          as (_ & _ & _ & _ & Hlook & Hcache); simpl in Hcache;
        (split;
         [ intros qs' c' Hs'; rewrite H in Hs'; injection Hs' as <- <-; eauto
         | destruct Hcache as [[_ ->]|(Hnone & Hlf & ->)];
           [ by left | right; eauto 10 ] ])
    end.
Qed.

Lemma iteration_cache_grows s s' :
  iter_state (Dispatch_iteration s) = Some s' ->
  common_start_time_per_trajectory_ s ⊆ common_start_time_per_trajectory_ s'.
Proof.
  intros [_ [->|(qs & c & t & _ & Hnone & _ & ->)]]%iteration_cache;
    [done | by apply insert_subseteq].
Qed.

Lemma Dispatch_cache_grows s s' :
  Dispatch s = Ok s' ->
  common_start_time_per_trajectory_ s ⊆ common_start_time_per_trajectory_ s'.
Proof.
  apply (Dispatch_loop_rel
           (fun s s' => common_start_time_per_trajectory_ s
                          ⊆ common_start_time_per_trajectory_ s')).
  - intros s1 s2 s3 H12 H23. by etrans.
  - intros s1 s2 Hit. apply iteration_cache_grows. by rewrite Hit.
  - intros s1 s2 Hit. apply iteration_cache_grows. by rewrite Hit.
Qed.

Lemma MarkQueueAsFinished_cache_grows k s s' :
  MarkQueueAsFinished k s = Ok s' ->
  common_start_time_per_trajectory_ s ⊆ common_start_time_per_trajectory_ s'.
Proof.
  unfold MarkQueueAsFinished. intros H.
  destruct (map_find k (queues_ s)) as [q|]; [|discriminate].
  destruct (finished q); [discriminate|].
  by apply Dispatch_cache_grows in H.
Qed.

Lemma MarkQueuesAsFinished_cache_grows ks s s' :
  MarkQueuesAsFinished ks s = Ok s' ->
  common_start_time_per_trajectory_ s ⊆ common_start_time_per_trajectory_ s'.
Proof.
  revert s. induction ks as [|k ks IH]; intros s H; simpl in H.
  - by injection H as <-.
  - destruct (MarkQueueAsFinished k s) as [s1|] eqn:Hm; [|discriminate].
    simpl in H. etrans; [by eapply MarkQueueAsFinished_cache_grows | by apply IH].
Qed.

Lemma run_op_cache_grows op s s' :
  run_op op s = Ok s' ->
  common_start_time_per_trajectory_ s ⊆ common_start_time_per_trajectory_ s'.
Proof.
  destruct op as [k|k d|k| |]; simpl; intros H.
  - unfold AddQueue in H. destruct (map_find k (queues_ s)); [discriminate|].
    by injection H as <-.
  - unfold Add in H. destruct (map_find k (queues_ s)).
    + by apply Dispatch_cache_grows in H.
    + by injection H as <-.
  - by eapply MarkQueueAsFinished_cache_grows.
  - by eapply MarkQueuesAsFinished_cache_grows.
  - destruct (GetBlocker s); [|discriminate]. by injection H as <-.
Qed.

Lemma run_cache_grows ops s s' :
  run ops s = Ok s' ->
  common_start_time_per_trajectory_ s ⊆ common_start_time_per_trajectory_ s'.
Proof.
  revert s. induction ops as [|op ops IH]; intros s H; simpl in H.
  - by injection H as <-.
  - destruct (run_op op s) as [s1|] eqn:Hop; [|discriminate].
    simpl in H. etrans; [by eapply run_op_cache_grows | by apply IH].
Qed.

(** C8: the common start time of a trajectory is written once.  The turn
    of Dispatch whose candidate belongs to a trajectory without an entry
    caches the latest front time, at that moment, among the queues of
    that trajectory; a turn writes no entry other than this one; and no
    sequence of calls (queues registered later and later pushes
    included) changes an entry once it is there. *)
Theorem common_start_time_computed_once :
  (forall s s' qs c,
     Time_min <= last_dispatched_time_ s ->
     scan (last_dispatched_time_ s) None (queues_ s) = ScanDone qs (Some c) ->
     common_start_time_per_trajectory_ s !! trajectory_id (next_queue_key c)
       = None ->
     iter_state (Dispatch_iteration s) = Some s' ->
     exists t,
       common_start_time_per_trajectory_ s' !! trajectory_id (next_queue_key c)
         = Some t /\
       is_latest_front (trajectory_id (next_queue_key c)) qs t) /\
  (forall s s' traj,
     iter_state (Dispatch_iteration s) = Some s' ->
     common_start_time_per_trajectory_ s' !! traj
       <> common_start_time_per_trajectory_ s !! traj ->
     common_start_time_per_trajectory_ s !! traj = None /\
     exists qs c,
       scan (last_dispatched_time_ s) None (queues_ s) = ScanDone qs (Some c) /\
       trajectory_id (next_queue_key c) = traj) /\
  (forall ops s s' traj t,
     run ops s = Ok s' ->
     common_start_time_per_trajectory_ s !! traj = Some t ->
     common_start_time_per_trajectory_ s' !! traj = Some t).
Proof.
  split; [|split].
  - intros s s' qs c Hmin Hscan Hnone Hst.
    destruct (iteration_cache _ _ Hst) as [Hsome Hcache].
    specialize (Hsome _ _ Hscan).
    destruct Hcache as [Heq|(qs0 & c0 & t & Hscan0 & _ & Hlf & Heq)].
    { rewrite Heq, Hnone in Hsome. by destruct Hsome. }
    rewrite Hscan in Hscan0. injection Hscan0 as <- <-.
    exists t. split; [rewrite Heq; apply lookup_insert_eq|].
    destruct (latest_front_spec _ _ _ _ Hlf) as (Hacc & Hub & Hatt).
    split; [|done].
    destruct Hatt as [->|Hatt]; [|done].
    destruct (scan_some _ _ _ _ Hscan) as [[Hin Hpeek] Hlast].
    exists (next_queue_key c), (next_queue c), (next_data c).
    repeat split; auto.
    specialize (Hub _ _ _ Hin eq_refl Hpeek). lia.
  - intros s s' traj Hst Hne.
    destruct (iteration_cache _ _ Hst)
      as [_ [Heq|(qs & c & t & Hscan & Hnone & _ & Heq)]].
    { by rewrite Heq in Hne. }
    destruct (decide (trajectory_id (next_queue_key c) = traj)) as [<-|Hd].
    + eauto.
    + rewrite Heq, lookup_insert_ne in Hne; done.
  - intros ops s s' traj t Hrun Hlook.
    eapply lookup_weaken; [exact Hlook|]. by eapply run_cache_grows.
Qed.

Lemma common_start_time_computed_once_witness :
  (exists t,
     common_start_time_per_trajectory_ S3_after !! trajectory_id keyA = Some t /\
     is_latest_front (trajectory_id keyA) (queues_ S3_state) t) /\
  common_start_time_per_trajectory_
    (state_of (run [OpAddQueue keyC;
                    OpAdd keyC (item 99);
                    OpAdd keyB (item 20)] S3_after)) !! 0 = Some 10.
Proof.
  destruct common_start_time_computed_once as (Hfirst & _ & Hkeep).
  split.
  - apply (Hfirst S3_state S3_after (queues_ S3_state)
             (mkCandidate (item 5) (mkQueue [item 5] true) keyA));
      by vm_compute.
  - apply (Hkeep [OpAddQueue keyC;
                  OpAdd keyC (item 99);
                  OpAdd keyB (item 20)] S3_after); by vm_compute.
Defined.

(** ** Bookkeeping of the map *)

Lemma map_find_None k qs : map_find k qs = None <-> k ∉ fst <$> qs.
Proof.
  induction qs as [|[k' q'] rest IH]; csimpl.
  - split; [intros _ ?%elem_of_nil | ]; done.
  - rewrite not_elem_of_cons. destruct (decide (k = k')); split; try done.
    + by intros [? _].
    + intros ?%IH. done.
    + intros [_ ?]. by apply IH.
Qed.

Lemma map_find_Some k qs q : map_find k qs = Some q -> (k, q) ∈ qs.
Proof.
  induction qs as [|[k' q'] rest IH]; simpl; [done|].
  destruct (decide (k = k')) as [->|?].
  - intros [= ->]. left.
  - intros ?%IH. by right.
Qed.

Lemma map_insert_keys k q qs :
  fst <$> map_insert k q qs ≡ₚ k :: (fst <$> qs).
Proof.
  induction qs as [|[k' q'] rest IH]; csimpl; [done|].
  destruct (key_ltb k k'); csimpl; [done|].
  rewrite IH. apply Permutation_swap.
Qed.

Lemma map_insert_elem k q qs : (k, q) ∈ map_insert k q qs.
Proof.
  induction qs as [|[k' q'] rest IH]; simpl; [left|].
  destruct (key_ltb k k'); [left | by right].
Qed.

Lemma map_adjust_keys f k qs : fst <$> map_adjust f k qs = fst <$> qs.
Proof.
  induction qs as [|[k' q'] rest IH]; csimpl; [done|].
  destruct (decide (k = k')); csimpl; by rewrite ?IH.
Qed.

Lemma map_adjust_finished_pending k qs :
  pending_items (map_adjust set_finished k qs) = pending_items qs.
Proof.
  induction qs as [|[k' q'] rest IH]; simpl; [done|].
  destruct (decide (k = k')); simpl; by rewrite ?IH.
Qed.

Lemma unfinished_elem k q qs :
  (k, q) ∈ qs -> finished q = false -> k ∈ unfinished_queues qs.
Proof.
  intros Hin Hf. unfold unfinished_queues.
  apply list_elem_of_fmap. exists (k, q). split; [done|].
  by apply list_elem_of_filter.
Qed.

Lemma unfinished_keys qs k :
  k ∈ unfinished_queues qs -> k ∈ fst <$> qs.
Proof.
  unfold unfinished_queues.
  intros ([k' q'] & -> & [_ Hin]%list_elem_of_filter)%list_elem_of_fmap.
  apply list_elem_of_fmap. by exists (k', q').
Qed.

(** Setting the flag of the first unfinished queue removes it from the
    list of unfinished queues. *)
Lemma map_adjust_finished_unfinished k ks qs :
  unique_keys qs ->
  unfinished_queues qs = k :: ks ->
  unfinished_queues (map_adjust set_finished k qs) = ks.
Proof.
  unfold unique_keys, unfinished_queues.
  induction qs as [|[k' q'] rest IH]; csimpl; [done|].
  intros [Hnotin Hnd]%NoDup_cons. rewrite filter_cons. simpl.
  destruct (decide (finished q' = false)) as [Hf|Hf]; csimpl.
  - intros [= <- <-]. rewrite decide_True by done.
    by rewrite filter_cons.
  - intros Hrest. destruct (decide (k = k')) as [->|Hne].
    + exfalso. apply Hnotin, unfinished_keys.
      unfold unfinished_queues. rewrite Hrest. left.
    + rewrite filter_cons. simpl. rewrite decide_False by done. auto.
Qed.

(** Under unique keys, popping at the key of an entry removes the front
    item of that very entry. *)
Lemma map_pop_pending_items k q d qs qs' :
  unique_keys qs -> (k, q) ∈ qs -> Peek q = Some d ->
  map_pop k qs = Some qs' ->
  pending_items qs ≡ₚ (k, d) :: pending_items qs'.
Proof.
  unfold unique_keys. revert qs'.
  induction qs as [|[k' q'] rest IH]; intros qs' Hnd Hin Hpeek Hpop;
    simpl in Hpop; [discriminate|].
  csimpl in Hnd. apply NoDup_cons in Hnd as [Hnotin Hnd].
  destruct (decide (k = k')) as [<-|Hne].
  - assert (q' = q) as ->.
    { apply elem_of_cons in Hin as [[= ->]|Hin]; [done|].
      exfalso. apply Hnotin, list_elem_of_fmap. by exists (k, q). }
    unfold Pop in Hpop. unfold Peek in Hpeek.
    destruct (queue q) as [|d0 tl] eqn:Hq; [discriminate|].
    injection Hpeek as ->. injection Hpop as <-. simpl. by rewrite Hq.
  - apply elem_of_cons in Hin as [[= -> ->]|Hin]; [done|].
    destruct (map_pop k rest) as [rest'|] eqn:Hr; [|discriminate].
    injection Hpop as <-. simpl.
    rewrite (IH _ Hnd Hin Hpeek eq_refl). by rewrite Permutation_middle.
Qed.

(** ** Accounting for every item *)

Lemma accounts_same s s' :
  common_start_time_per_trajectory_ s ⊆ common_start_time_per_trajectory_ s' ->
  trace s' = trace s ->
  pending_items (queues_ s') = pending_items (queues_ s) ->
  accounts s s'.
Proof.
  intros Hc Htr Hp. split; [done|]. exists [].
  rewrite Htr, Hp, app_nil_r. by repeat split.
Qed.

Lemma accounts_trans s1 s2 s3 : accounts s1 s2 -> accounts s2 s3 -> accounts s1 s3.
Proof.
  intros [Hc1 (n1 & Ht1 & Hp1 & Hd1)] [Hc2 (n2 & Ht2 & Hp2 & Hd2)].
  split; [by etrans|]. exists (n1 ++ n2).
  split; [by rewrite Ht2, Ht1, app_assoc|]. split.
  - by rewrite Hp1, Hp2, fmap_app, app_assoc.
  - apply Forall_app. split; [|done].
    eapply Forall_impl; [exact Hd1|]. intros [k d|k d]; simpl; [done|].
    intros (t & Ht & Hlt). exists t. split; [|done].
    by eapply lookup_weaken.
Qed.

Lemma carries_trans s1 s2 s3 : carries s1 s2 -> carries s2 s3 -> carries s1 s3.
Proof.
  unfold carries. intros H12 H23 Hu1.
  destruct (H12 Hu1) as (Hu2 & Hf2 & Ha2).
  destruct (H23 Hu2) as (Hu3 & Hf3 & Ha3).
  split; [done|]. split; [congruence|]. by eapply accounts_trans.
Qed.

Lemma iteration_Again_carries s s' :
  Dispatch_iteration s = Again s' -> carries s s'.
Proof.
  intros (c & qs1 & t & Hscan & Hpop & Hcache & Hlook & _ & Hout)
    %iteration_Again_effect Hu.
  pose proof (scan_done_erased _ _ _ _ _ Hscan) as Her.
  destruct (scan_some _ _ _ _ Hscan) as [[Hin Hpeek] _].
  pose proof (erased_unique_keys _ _ Her Hu) as Hu1.
  split; [|split; [|split]].
  - unfold unique_keys. by rewrite (map_pop_keys _ _ _ Hpop).
  - by rewrite (map_pop_unfinished _ _ _ Hpop), (erased_unfinished _ _ Her).
  - done.
  - pose proof (map_pop_pending_items _ _ _ _ _ Hu1 Hin Hpeek Hpop) as Hperm.
    rewrite (erased_pending_items _ _ Her) in Hperm.
    destruct Hout as [[Htr _]|(Htr & _ & Hlt)]; eexists; (split; [exact Htr|]).
    + split; [exact Hperm | by repeat constructor].
    + split; [exact Hperm|]. repeat constructor. simpl. eauto.
Qed.

Lemma iteration_Halt_carries s s' :
  Dispatch_iteration s = Halt s' -> carries s s'.
Proof.
  intros (Htr & _ & Her & Hcache & _)%iteration_Halt_effect Hu.
  split; [by eapply erased_unique_keys|].
  split; [by apply erased_unfinished|].
  apply accounts_same; auto using erased_pending_items.
Qed.

Lemma Dispatch_carries s s' : Dispatch s = Ok s' -> carries s s'.
Proof.
  apply (Dispatch_loop_rel carries);
    eauto using carries_trans, iteration_Again_carries,
                iteration_Halt_carries.
Qed.

(** When Dispatch returns and every queue left is finished, no queue is
    left. *)
Lemma Dispatch_settles s s' :
  unique_keys (queues_ s) -> Dispatch s = Ok s' -> settled s'.
Proof.
  intros Hu Hd. split; [by apply (Dispatch_carries _ _ Hd)|].
  intros Hnone.
  apply Dispatch_loop_last in Hd as [s0 Hit].
  apply iteration_Halt_effect in Hit
    as (_ & _ & _ & _ & [Hnil|(q & Hin & Hf & _)]); [done|].
  apply unfinished_elem in Hin; [|done].
  rewrite Hnone in Hin. by apply elem_of_nil in Hin.
Qed.

Lemma MarkQueueAsFinished_inv k s s' :
  MarkQueueAsFinished k s = Ok s' ->
  exists q, map_find k (queues_ s) = Some q /\ finished q = false /\
    Dispatch (set_queues (map_adjust set_finished k (queues_ s)) s) = Ok s'.
Proof.
  unfold MarkQueueAsFinished.
  destruct (map_find k (queues_ s)) as [q|]; [|discriminate].
  destruct (finished q) eqn:Hf; [discriminate|]. eauto.
Qed.

Lemma MarkQueueAsFinished_settles k s s' :
  unique_keys (queues_ s) -> MarkQueueAsFinished k s = Ok s' -> settled s'.
Proof.
  intros Hu (q & _ & _ & Hd)%MarkQueueAsFinished_inv.
  eapply Dispatch_settles; [|exact Hd].
  unfold unique_keys. simpl. by rewrite map_adjust_keys.
Qed.

(** The loop of Flush: the keys still to be finished are exactly the
    unfinished queues of the map, and nothing is left when it ends. *)
Lemma MarkQueuesAsFinished_accounts ks s s' :
  settled s ->
  unfinished_queues (queues_ s) = ks ->
  MarkQueuesAsFinished ks s = Ok s' ->
  settled s' /\ unfinished_queues (queues_ s') = [] /\ accounts s s'.
Proof.
  revert s. induction ks as [|k ks IH]; intros s Hs Hks H; simpl in H.
  - injection H as <-. split; [done|]. split; [done|].
    by apply accounts_same.
  - destruct (MarkQueueAsFinished k s) as [s1|] eqn:Hm; [|discriminate].
    simpl in H. destruct Hs as [Hu Hs].
    pose proof (MarkQueueAsFinished_settles _ _ _ Hu Hm) as Hs1.
    apply MarkQueueAsFinished_inv in Hm as (q & _ & _ & Hd).
    apply Dispatch_carries in Hd. destruct Hd as (Hu1 & Hf1 & Ha1).
    { unfold unique_keys. simpl. by rewrite map_adjust_keys. }
    simpl in Hf1.
    rewrite (map_adjust_finished_unfinished _ _ _ Hu Hks) in Hf1.
    destruct (IH _ Hs1 Hf1 H) as (Hs' & Hf' & Ha').
    split; [done|]. split; [done|].
    eapply accounts_trans; [|exact Ha'].
    eapply accounts_trans; [|exact Ha1].
    apply accounts_same; simpl; auto using map_adjust_finished_pending.
Qed.

Lemma settled_init : settled init.
Proof. split; [constructor | done]. Qed.

Lemma run_op_settled op s s' : settled s -> run_op op s = Ok s' -> settled s'.
Proof.
  intros [Hu Hs] H. destruct op as [k|k d|k| |]; simpl in H.
  - unfold AddQueue in H.
    destruct (map_find k (queues_ s)) eqn:Hfind; [discriminate|].
    injection H as <-. unfold settled, set_queues. cbn [queues_]. split.
    + unfold unique_keys. rewrite map_insert_keys.
      apply NoDup_cons. split; [by apply map_find_None | done].
    + intros Hnone.
      pose proof (unfinished_elem k Queue_default _
                    (map_insert_elem k Queue_default (queues_ s)) eq_refl) as Hin.
      rewrite Hnone in Hin. by apply elem_of_nil in Hin.
  - unfold Add in H. destruct (map_find k (queues_ s)).
    + eapply Dispatch_settles; [|exact H].
      unfold unique_keys. simpl. by rewrite map_adjust_keys.
    + by injection H as <-.
  - by eapply MarkQueueAsFinished_settles.
  - by eapply (MarkQueuesAsFinished_accounts _ s s').
  - destruct (GetBlocker s); [|discriminate]. by injection H as <-.
Qed.

Lemma run_settled ops s s' : settled s -> run ops s = Ok s' -> settled s'.
Proof.
  revert s. induction ops as [|op ops IH]; intros s Hs H; simpl in H.
  - by injection H as <-.
  - destruct (run_op op s) as [s1|] eqn:Hop; [|discriminate].
    simpl in H. eauto using run_op_settled.
Qed.



(** On the backlog Flush destroys B@1 and B@2 and delivers B@3 and A@10. *)
Example backlog_Flush :
  pending_items (queues_ backlog)
  = [(keyA, item 10); (keyB, item 1); (keyB, item 2); (keyB, item 3)] /\
  trace backlog_flushed
  = [Dropped keyB (item 1); Dropped keyB (item 2);
     Delivered keyB (item 3); Delivered keyA (item 10)].
Proof. by vm_compute. Qed.

(** An all-finished map that is not empty cannot arise from calls; on
    such a state Flush would find nothing to finish and leave the queue
    in place. *)
Example Flush_unreachable_state :
  Flush (mkState [(keyA, mkQueue [item 1] true)] Time_min ∅ keyA [])
  = Ok (mkState [(keyA, mkQueue [item 1] true)] Time_min ∅ keyA []).
Proof. reflexivity. Qed.

(** ** Time stamps of reachable states *)

(** last_dispatched_time_ starts at Time::min() and never goes back, so
    it stays at or above it. *)
Lemma run_last_dispatched_time_min ops s :
  run ops init = Ok s -> Time_min <= last_dispatched_time_ s.
Proof. intros H. by apply (run_advances _ _ _ H). Qed.

(** On two unfinished queues with one item each the scan runs through,
    the candidate is A@5 and both queues have a front item. *)
Example thin_state_scan :
  scan (last_dispatched_time_ thin_state) None (queues_ thin_state)
  = ScanDone (queues_ thin_state)
             (Some (mkCandidate (item 5) (mkQueue [item 5] false) keyA)).
Proof. reflexivity. Qed.

(** After a Flush that returns, the destructor's CHECK passes. *)
Lemma Destructor_after_Flush ops s s' :
  run ops init = Ok s -> Flush s = Ok s' -> Destructor s' = Ok tt.
Proof.
  intros Hrun Hflush.
  pose proof (run_settled _ _ _ settled_init Hrun) as Hs.
  destruct (MarkQueuesAsFinished_accounts _ _ _ Hs eq_refl Hflush)
    as ([_ Hs'] & Hnone & _).
  unfold Destructor. by rewrite (Hs' Hnone).
Qed.

(** * Further properties of the code *)

(** ** The key order of the map *)

Lemma string_ltb_lt a b :
  String.ltb a b = true <-> OrderedTypeEx.String_as_OT.lt a b.
Proof.
  rewrite <- OrderedTypeEx.String_as_OT.cmp_lt.
  unfold String.ltb, OrderedTypeEx.String_as_OT.cmp.
  destruct (String.compare a b); split; congruence.
Qed.

Lemma string_ltb_trans a b c :
  String.ltb a b = true -> String.ltb b c = true -> String.ltb a c = true.
Proof.
  rewrite !string_ltb_lt. apply OrderedTypeEx.String_as_OT.lt_trans.
Qed.

Lemma string_ltb_irrefl a : String.ltb a a = false.
Proof.
  destruct (String.ltb a a) eqn:H; [|done].
  apply string_ltb_lt, OrderedTypeEx.String_as_OT.lt_not_eq in H.
  by destruct H.
Qed.

Lemma string_ltb_total a b :
  a <> b -> String.ltb a b = false -> String.ltb b a = true.
Proof.
  unfold String.ltb. rewrite (String.compare_antisym b a).
  destruct (String.compare a b) eqn:Hc; simpl; try done.
  intros Hne _. by apply String.compare_eq_iff in Hc.
Qed.

Lemma key_lt_trans a b c : key_lt a b -> key_lt b c -> key_lt a c.
Proof.
  unfold key_lt, key_ltb. destruct a as [ta sa], b as [tb sb], c as [tc sc].
  simpl. rewrite !orb_true_iff, !andb_true_iff, !Z.ltb_lt, !Z.eqb_eq.
  intros [Hab|[Hab Hsab]] [Hbc|[Hbc Hsbc]]; try (left; lia).
  right. split; [lia|]. by eapply string_ltb_trans.
Qed.

Lemma key_lt_irrefl a : ~ key_lt a a.
Proof.
  unfold key_lt, key_ltb.
  rewrite orb_true_iff, andb_true_iff, Z.ltb_lt, string_ltb_irrefl.
  intros [?|[_ ?]]; [lia | done].
Qed.

Lemma key_lt_total a b : a <> b -> ~ key_lt a b -> key_lt b a.
Proof.
  unfold key_lt, key_ltb. destruct a as [ta sa], b as [tb sb]. simpl.
  rewrite !orb_true_iff, !andb_true_iff, !Z.ltb_lt, !Z.eqb_eq.
  intros Hne Hnlt.
  destruct (Z.lt_trichotomy ta tb) as [Hlt|[Heq|Hgt]].
  - destruct Hnlt. by left.
  - right. split; [done|]. apply string_ltb_total; [congruence|].
    destruct (String.ltb sa sb) eqn:Hs; [|done]. destruct Hnlt. by right.
  - by left.
Qed.

Lemma key_lt_asym a b : key_lt a b -> ~ key_lt b a.
Proof. intros Hab Hba. by apply (key_lt_irrefl a), (key_lt_trans a b a). Qed.

Lemma StronglySorted_sublist {A} (R : relation A) (l1 l2 : list A) :
  l1 `sublist_of` l2 -> StronglySorted R l2 -> StronglySorted R l1.
Proof.
  induction 1 as [|x l1 l2 Hsub IH|x l1 l2 Hsub IH]; intros Hs.
  - constructor.
  - apply StronglySorted_cons in Hs as [Hall Hs].
    apply StronglySorted_cons. split; [|by apply IH].
    rewrite Forall_forall in Hall |- *. intros y Hy.
    apply Hall. by eapply elem_of_sublist.
  - apply StronglySorted_cons in Hs as [_ Hs]. by apply IH.
Qed.

Lemma map_insert_sorted k q qs :
  sorted_keys qs -> k ∉ fst <$> qs -> sorted_keys (map_insert k q qs).
Proof.
  unfold sorted_keys.
  induction qs as [|[k' q'] rest IH]; csimpl; intros Hs Hnotin.
  - by repeat constructor.
  - apply StronglySorted_cons in Hs as [Hall Hs].
    apply not_elem_of_cons in Hnotin as [Hne Hnotin].
    destruct (key_ltb k k') eqn:Hlt; csimpl.
    + apply StronglySorted_cons. split.
      * constructor; [done|]. eapply Forall_impl; [exact Hall|].
        intros k2 Hk2. by eapply key_lt_trans.
      * by apply StronglySorted_cons.
    + apply StronglySorted_cons. split; [|by apply IH].
      rewrite map_insert_keys. constructor; [|done].
      apply key_lt_total; [done|]. unfold key_lt. by rewrite Hlt.
Qed.

(** Dispatch only removes entries: the keys it leaves are, in order,
    among the keys it found. *)
Lemma Dispatch_keys_sublist s s' :
  Dispatch s = Ok s' -> (fst <$> queues_ s') `sublist_of` (fst <$> queues_ s).
Proof.
  apply (Dispatch_loop_rel
           (fun s s' => (fst <$> queues_ s') `sublist_of` (fst <$> queues_ s))).
  - intros s1 s2 s3 H12 H23. by etrans.
  - intros s1 s2 (c & qs1 & t & Hscan & Hpop & _)%iteration_Again_effect.
    rewrite (map_pop_keys _ _ _ Hpop).
    by eapply fmap_sublist, erased_sublist, scan_done_erased.
  - intros s1 s2 (_ & _ & Her & _)%iteration_Halt_effect.
    by apply fmap_sublist, erased_sublist.
Qed.

Lemma MarkQueueAsFinished_keys_sublist k s s' :
  MarkQueueAsFinished k s = Ok s' ->
  (fst <$> queues_ s') `sublist_of` (fst <$> queues_ s).
Proof.
  intros (q & _ & _ & Hd)%MarkQueueAsFinished_inv.
  apply Dispatch_keys_sublist in Hd. simpl in Hd.
  by rewrite map_adjust_keys in Hd.
Qed.

Lemma MarkQueuesAsFinished_keys_sublist ks s s' :
  MarkQueuesAsFinished ks s = Ok s' ->
  (fst <$> queues_ s') `sublist_of` (fst <$> queues_ s).
Proof.
  revert s. induction ks as [|k ks IH]; intros s H; simpl in H.
  - by injection H as <-.
  - destruct (MarkQueueAsFinished k s) as [s1|] eqn:Hm; [|discriminate].
    simpl in H. etrans; [by apply IH|].
    by eapply MarkQueueAsFinished_keys_sublist.
Qed.

Lemma run_op_sorted op s s' :
  sorted_keys (queues_ s) -> run_op op s = Ok s' -> sorted_keys (queues_ s').
Proof.
  intros Hs H. destruct op as [k|k d|k| |]; simpl in H.
  - unfold AddQueue in H.
    destruct (map_find k (queues_ s)) eqn:Hfind; [discriminate|].
    injection H as <-. unfold set_queues. cbn [queues_].
    apply map_insert_sorted; [done|]. by apply map_find_None.
  - unfold Add in H. destruct (map_find k (queues_ s)).
    + apply Dispatch_keys_sublist in H. simpl in H.
      rewrite map_adjust_keys in H. by eapply StronglySorted_sublist.
    + by injection H as <-.
  - eapply StronglySorted_sublist; [|exact Hs].
    by eapply MarkQueueAsFinished_keys_sublist.
  - eapply StronglySorted_sublist; [|exact Hs].
    by eapply MarkQueuesAsFinished_keys_sublist.
  - destruct (GetBlocker s); [|discriminate]. by injection H as <-.
Qed.

(** X1: after any sequence of calls the entries of queues_ stand in
    strictly increasing key order (trajectory first, then sensor id), so
    the scan of Dispatch visits the queues in key order and no key occurs
    twice. *)
Theorem queues_sorted_by_key ops s :
  run ops init = Ok s ->
  sorted_keys (queues_ s) /\ NoDup (fst <$> queues_ s).
Proof.
  intros Hrun.
  assert (sorted_keys (queues_ s)) as Hs.
  { assert (sorted_keys (queues_ init)) as Hi by constructor.
    revert Hrun Hi. generalize init.
    induction ops as [|op ops IH]; intros s0 Hrun Hs0; simpl in Hrun.
    - by injection Hrun as <-.
    - destruct (run_op op s0) as [s1|] eqn:Hop; [|discriminate].
      simpl in Hrun. eauto using run_op_sorted. }
  split; [done|].
  by apply (run_settled _ _ _ settled_init Hrun).
Qed.

Lemma queues_sorted_by_key_witness :
  sorted_keys (queues_ backlog) /\ NoDup (fst <$> queues_ backlog).
Proof. apply (queues_sorted_by_key backlog_ops). by vm_compute. Defined.

(** ** Registering queues *)

Lemma map_find_insert k q qs :
  k ∉ fst <$> qs -> map_find k (map_insert k q qs) = Some q.
Proof.
  induction qs as [|[k' q'] rest IH]; csimpl; intros Hnotin.
  - by rewrite decide_True.
  - apply not_elem_of_cons in Hnotin as [Hne Hnotin].
    destruct (key_ltb k k'); simpl.
    + by rewrite decide_True.
    + rewrite decide_False by done. by apply IH.
Qed.

Lemma map_find_insert_ne k k' q qs :
  k' <> k -> map_find k' (map_insert k q qs) = map_find k' qs.
Proof.
  intros Hne. induction qs as [|[k0 q0] rest IH]; simpl.
  - by rewrite decide_False.
  - destruct (key_ltb k k0); simpl.
    + by rewrite decide_False.
    + destruct (decide (k' = k0)); [done | by apply IH].
Qed.

(** X2: AddQueue succeeds exactly on a key that is not in the map.  It
    then stores an empty, unfinished queue under that key, leaves the
    queue found under every other key as it was, touches no other
    member, and a second AddQueue with the same key is fatal. *)
Theorem AddQueue_registers k s :
  (map_find k (queues_ s) <> None -> AddQueue k s = Err CheckFailed) /\
  (map_find k (queues_ s) = None ->
   exists s',
     AddQueue k s = Ok s' /\
     map_find k (queues_ s') = Some Queue_default /\
     (forall k', k' <> k -> map_find k' (queues_ s') = map_find k' (queues_ s)) /\
     last_dispatched_time_ s' = last_dispatched_time_ s /\
     common_start_time_per_trajectory_ s' = common_start_time_per_trajectory_ s /\
     blocker_ s' = blocker_ s /\
     trace s' = trace s /\
     AddQueue k s' = Err CheckFailed).
Proof.
  split.
  - unfold AddQueue. by destruct (map_find k (queues_ s)).
  - intros Hnone. unfold AddQueue at 1. rewrite Hnone.
    eexists. split; [done|]. simpl.
    assert (map_find k (map_insert k Queue_default (queues_ s))
            = Some Queue_default) as Hfound
      by (by apply map_find_insert, map_find_None).
    split; [done|].
    split; [intros k' Hne; by apply map_find_insert_ne|].
    repeat (split; [done|]).
    unfold AddQueue. simpl. by rewrite Hfound.
Qed.

Lemma AddQueue_registers_witness :
  exists s',
    AddQueue keyC S1_mid = Ok s' /\
    map_find keyC (queues_ s') = Some Queue_default /\
    (forall k', k' <> keyC ->
       map_find k' (queues_ s') = map_find k' (queues_ S1_mid)) /\
    last_dispatched_time_ s' = last_dispatched_time_ S1_mid /\
    common_start_time_per_trajectory_ s'
      = common_start_time_per_trajectory_ S1_mid /\
    blocker_ s' = blocker_ S1_mid /\
    trace s' = trace S1_mid /\
    AddQueue keyC s' = Err CheckFailed.
Proof. apply (AddQueue_registers keyC S1_mid). reflexivity. Defined.

Lemma map_insert_comm k1 q1 k2 q2 qs :
  k1 <> k2 ->
  map_insert k1 q1 (map_insert k2 q2 qs) = map_insert k2 q2 (map_insert k1 q1 qs).
Proof.
  intros Hne.
  assert (key_ltb k1 k2 = negb (key_ltb k2 k1)) as H12.
  { destruct (key_ltb k1 k2) eqn:H1, (key_ltb k2 k1) eqn:H2; try done.
    - by destruct (key_lt_asym k1 k2).
    - assert (key_lt k2 k1) as Hc
        by (apply key_lt_total; [done | unfold key_lt; by rewrite H1]).
      unfold key_lt in Hc. congruence. }
  induction qs as [|[k' q'] rest IH]; simpl.
  - rewrite H12. by destruct (key_ltb k2 k1).
  - destruct (key_ltb k2 k') eqn:H2, (key_ltb k1 k') eqn:H1; simpl;
      rewrite ?H1, ?H2, ?H12; simpl.
    + by destruct (key_ltb k2 k1).
    + destruct (key_ltb k2 k1) eqn:H21; simpl; [done|].
      simpl in H12.
      assert (key_lt k1 k') as Hc by (by eapply key_lt_trans).
      unfold key_lt in Hc. congruence.
    + destruct (key_ltb k2 k1) eqn:H21; simpl; [|done].
      assert (key_lt k2 k') as Hc by (by eapply key_lt_trans).
      unfold key_lt in Hc. congruence.
    + by rewrite IH.
Qed.

(** X3: the order in which two different queues are registered makes no
    difference: the two AddQueue calls give the same result, fatal or
    not, in either order. *)
Theorem AddQueue_comm k1 k2 s :
  k1 <> k2 ->
  bind (AddQueue k1 s) (AddQueue k2) = bind (AddQueue k2 s) (AddQueue k1).
Proof.
  intros Hne. unfold AddQueue.
  destruct (map_find k1 (queues_ s)) eqn:H1, (map_find k2 (queues_ s)) eqn:H2;
    simpl; rewrite ?map_find_insert_ne, ?H1, ?H2 by done; try done.
  by rewrite map_insert_comm.
Qed.

Lemma AddQueue_comm_witness :
  bind (AddQueue keyB init) (AddQueue keyA)
  = bind (AddQueue keyA init) (AddQueue keyB).
Proof. apply AddQueue_comm. discriminate. Defined.

(** ** The choice of the candidate *)

Lemma pick_new_or_old next k q d :
  (pick next k q d = mkCandidate d q k /\
   forall c0, next = Some c0 -> GetTime d < GetTime (next_data c0)) \/
  (next = Some (pick next k q d) /\
   GetTime (next_data (pick next k q d)) <= GetTime d).
Proof.
  unfold pick. destruct next as [c|].
  - destruct (Z.ltb_spec0 (GetTime d) (GetTime (next_data c))).
    + left. split; [done|]. by intros c0 [= <-].
    + right. split; [done|]. lia.
  - left. split; [done|]. by intros c0 [=].
Qed.

Lemma scan_first_minimal last next qs qs' c :
  scan last next qs = ScanDone qs' (Some c) ->
  (next = Some c /\ fronts_from (GetTime (next_data c)) qs') \/
  (exists l1 l2,
     qs' = l1 ++ (next_queue_key c, next_queue c) :: l2 /\
     Peek (next_queue c) = Some (next_data c) /\
     fronts_after (GetTime (next_data c)) l1 /\
     fronts_from (GetTime (next_data c)) l2 /\
     forall c0, next = Some c0 ->
       GetTime (next_data c) < GetTime (next_data c0)).
Proof.
  unfold fronts_from, fronts_after.
  revert next qs'. induction qs as [|[k q] rest IH]; intros next qs' H.
  - inversion H; subst. left. by split; [|constructor].
  - scan_entry H q; try discriminate.
    + eauto.
    + apply keep_done in H as (qs'' & -> & H).
      assert (Peek q = Some d) as Hpeek by (unfold Peek; by rewrite Hq).
      destruct (IH _ _ H) as [[Hc Hall]|(l1 & l2 & -> & Hp & H1 & H2 & Hlt)].
      * injection Hc as <-.
        destruct (pick_new_or_old next k q d) as [[Hnew Hlt]|[Hold Hge]].
        -- right. exists [], qs''. rewrite Hnew in *. simpl.
           repeat split; auto.
        -- left. split; [done|]. constructor; [|done].
           simpl. intros d0. rewrite Hpeek. intros [= <-]. done.
      * right. exists ((k, q) :: l1), l2.
        specialize (Hlt _ eq_refl).
        repeat split; auto.
        -- constructor; [|done]. simpl. intros d0. rewrite Hpeek.
           intros [= <-]. pose proof (pick_time next k q d). lia.
        -- intros c0 ->. pose proof (pick_time_next c0 k q d). lia.
Qed.

(** X4: the candidate of a complete scan is the first queue, in the
    order of the map, whose front item has the smallest time stamp: the
    fronts of the queues before it are strictly later, those of the
    queues behind it are not earlier.  Among equal time stamps the
    smallest key wins. *)
Theorem candidate_is_first_minimal last qs qs' c :
  scan last None qs = ScanDone qs' (Some c) ->
  exists l1 l2,
    qs' = l1 ++ (next_queue_key c, next_queue c) :: l2 /\
    Peek (next_queue c) = Some (next_data c) /\
    fronts_after (GetTime (next_data c)) l1 /\
    fronts_from (GetTime (next_data c)) l2.
Proof.
  intros H.
  destruct (scan_first_minimal _ _ _ _ _ H)
    as [[[=] _]|(l1 & l2 & Hqs & Hp & H1 & H2 & _)].
  by exists l1, l2.
Qed.

Lemma candidate_is_first_minimal_witness :
  exists l1 l2,
    [(keyA, mkQueue [item 7] false); (keyB, mkQueue [item 5; item 9] false);
     (keyC, mkQueue [item 5] true)]
    = l1 ++ (keyB, mkQueue [item 5; item 9] false) :: l2 /\
    Peek (mkQueue [item 5; item 9] false) = Some (item 5) /\
    fronts_after (GetTime (item 5)) l1 /\
    fronts_from (GetTime (item 5)) l2.
Proof.
  apply (candidate_is_first_minimal 0
           [(keyA, mkQueue [item 7] false);
            (keyB, mkQueue [item 5; item 9] false);
            (keyC, mkQueue [item 5] true)] _
           (mkCandidate (item 5) (mkQueue [item 5; item 9] false) keyB)).
  reflexivity.
Defined.

(** ** Input in time order never fails a check *)

Lemma scanned_heads_elem d qs :
  d ∈ scanned_heads qs -> exists e, e ∈ qs /\ Peek (snd e) = Some d.
Proof.
  induction qs as [|[k q] rest IH]; simpl; intros Hin.
  - by apply elem_of_nil in Hin.
  - destruct (Peek q) as [d0|] eqn:Hp.
    + apply elem_of_cons in Hin as [->|Hin].
      * exists (k, q). split; [left | done].
      * destruct (IH Hin) as (e & He & Hpe). exists e. split; [by right | done].
    + destruct (finished q); [|by apply elem_of_nil in Hin].
      destruct (IH Hin) as (e & He & Hpe). exists e. split; [by right | done].
Qed.

Lemma in_order_front last e d :
  in_order last e -> Peek (snd e) = Some d -> last <= GetTime d.
Proof.
  intros [_ Hall]. unfold Peek. destruct (queue e.2) as [|d0 tl]; [done|].
  intros [= <-]. by apply Forall_cons in Hall as [? _].
Qed.

Lemma in_order_raise last t e :
  in_order last e ->
  (forall d, Peek (snd e) = Some d -> t <= GetTime d) ->
  in_order t e.
Proof.
  intros [Hs Hall] Hfront. split; [done|]. unfold Peek in Hfront.
  destruct (queue e.2) as [|d0 tl]; [constructor|].
  specialize (Hfront d0 eq_refl). csimpl in Hs.
  apply StronglySorted_cons in Hs as [Hge _].
  constructor; [done|].
  rewrite Forall_fmap in Hge. eapply Forall_impl; [exact Hge|].
  simpl. intros. lia.
Qed.

Lemma in_order_Pop t k q d q' :
  in_order t (k, q) -> Pop q = Some (d, q') -> in_order t (k, q').
Proof.
  unfold in_order, Pop. simpl. intros [Hs Hall].
  destruct (queue q) as [|d0 tl]; [done|]. intros [= <- <-]. simpl.
  csimpl in Hs. apply StronglySorted_cons in Hs as [_ Hs].
  apply Forall_cons in Hall as [_ Hall]. done.
Qed.

Lemma map_pop_Forall (P : QueueKey * Queue -> Prop) k qs qs' :
  (forall k q d q', P (k, q) -> Pop q = Some (d, q') -> P (k, q')) ->
  Forall P qs -> map_pop k qs = Some qs' -> Forall P qs'.
Proof.
  intros HP. revert qs'.
  induction qs as [|[k' q'] rest IH]; intros qs' Hall Hpop; simpl in Hpop;
    [discriminate|].
  apply Forall_cons in Hall as [Hq Hall].
  destruct (decide (k = k')).
  - destruct (Pop q') as [[d q'']|] eqn:Hp; [|discriminate].
    injection Hpop as <-. constructor; [by eapply HP | done].
  - destruct (map_pop k rest) as [rest'|]; [|discriminate].
    injection Hpop as <-. constructor; [done | by apply IH].
Qed.

Lemma erased_Forall (P : QueueKey * Queue -> Prop) qs qs' :
  erased qs qs' -> Forall P qs -> Forall P qs'.
Proof.
  induction 1; intros Hall; [done| |];
    apply Forall_cons in Hall as [? ?]; [constructor|]; auto.
Qed.

Lemma well_ordered_scan last qs :
  Forall (in_order last) qs -> scan last None qs <> ScanFatal.
Proof.
  intros Hall Hf. apply scan_fatal_iff in Hf; [|done].
  apply Exists_exists in Hf as (d & Hd & Hlt).
  apply scanned_heads_elem in Hd as (e & He & Hp).
  rewrite Forall_forall in Hall.
  pose proof (in_order_front _ _ _ (Hall _ He) Hp). lia.
Qed.

(** A turn of the loop on well-ordered queues does not abort and leaves
    well-ordered queues. *)
Lemma iteration_well_ordered s :
  well_ordered s ->
  exists s', well_ordered s' /\
    (Dispatch_iteration s = Again s' \/ Dispatch_iteration s = Halt s').
Proof.
  intros Hw.
  destruct (Dispatch_iteration s) as [s'|s'|e] eqn:Hit.
  - exists s'. split; [|by left].
    destruct (iteration_Again_effect _ _ Hit)
      as (c & qs1 & t & Hscan & Hpop & _ & _ & _ & Hout).
    pose proof (erased_Forall _ _ _ (scan_done_erased _ _ _ _ _ Hscan) Hw)
      as Hw1.
    unfold well_ordered.
    destruct Hout as [[_ ->]|(_ & -> & _)].
    + eapply map_pop_Forall; [apply in_order_Pop| |exact Hpop].
      destruct (scan_done_min _ _ _ _ _ Hscan) as [Hmin _].
      rewrite Forall_forall in Hw1, Hmin |- *. intros e He.
      eapply in_order_raise; eauto.
    + eapply map_pop_Forall; [apply in_order_Pop|exact Hw1|exact Hpop].
  - exists s'. split; [|by right].
    destruct (iteration_Halt_effect _ _ Hit) as (_ & Hl & Her & _).
    unfold well_ordered. rewrite Hl. by eapply erased_Forall.
  - exfalso. pose proof (Dispatch_iteration_cases s) as Hc.
    rewrite Hit in Hc. inversion Hc; subst.
    by eapply well_ordered_scan.
Qed.

Lemma Dispatch_loop_well_ordered fuel s :
  (pending_count (queues_ s) < fuel)%nat ->
  well_ordered s ->
  exists s', Dispatch_loop fuel s = Ok s' /\ well_ordered s'.
Proof.
  revert s. induction fuel as [|fuel IH]; intros s Hlt Hw; [lia|].
  simpl. destruct (iteration_well_ordered s Hw) as (s' & Hw' & [Hit|Hit]);
    rewrite Hit.
  - apply IH; [|done]. apply iteration_Again_pending in Hit. lia.
  - eauto.
Qed.

Lemma Dispatch_ordered s :
  well_ordered s -> exists s', Dispatch s = Ok s' /\ well_ordered s'.
Proof. intros Hw. apply Dispatch_loop_well_ordered; [lia | done]. Qed.

(** X5: when every queue holds its items in non-decreasing time order
    and nothing queued is older than last_dispatched_time_, Dispatch
    fails no check: it returns, and the queues it leaves are again in
    order and not older than the new last_dispatched_time_. *)
Theorem Dispatch_well_ordered s :
  well_ordered s -> exists s', Dispatch s = Ok s' /\ well_ordered s'.
Proof. apply Dispatch_ordered. Qed.

Lemma Dispatch_well_ordered_witness :
  exists s', Dispatch S3_state = Ok s' /\ well_ordered s'.
Proof.
  apply Dispatch_well_ordered. unfold well_ordered, in_order. simpl.
  repeat constructor; by vm_compute.
Defined.

Lemma map_adjust_Forall (P : QueueKey * Queue -> Prop) f k q qs :
  Forall P qs -> map_find k qs = Some q -> P (k, f q) ->
  Forall P (map_adjust f k qs).
Proof.
  induction qs as [|[k' q'] rest IH]; simpl; [done|].
  intros [Hq Hall]%Forall_cons Hfind HP.
  destruct (decide (k = k')) as [<-|Hne].
  - injection Hfind as ->. by constructor.
  - constructor; [done | by apply IH].
Qed.

Lemma well_ordered_find s k q :
  well_ordered s -> map_find k (queues_ s) = Some q ->
  in_order (last_dispatched_time_ s) (k, q).
Proof.
  intros Hw Hfind%map_find_Some. unfold well_ordered in Hw.
  rewrite Forall_forall in Hw. by apply Hw.
Qed.

(** X6: on an unregistered key Add returns the state unchanged, for any
    item and any state.  On well-ordered queues, Add of an item that is
    not older than last_dispatched_time_ nor than anything already in
    its queue fails no check and leaves the queues well-ordered. *)
Theorem Add_in_order k d s :
  (map_find k (queues_ s) = None -> Add k d s = Ok s) /\
  (well_ordered s ->
   (forall q, map_find k (queues_ s) = Some q ->
      last_dispatched_time_ s <= GetTime d /\
      Forall (fun d0 => GetTime d0 <= GetTime d) (queue q)) ->
   exists s', Add k d s = Ok s' /\ well_ordered s').
Proof.
  split; [intros Hnone; unfold Add; by rewrite Hnone|].
  intros Hw Hd. unfold Add.
  destruct (map_find k (queues_ s)) as [q|] eqn:Hfind; [|eauto].
  destruct (Hd q eq_refl) as [Hlast Hback].
  apply Dispatch_ordered. unfold well_ordered. simpl.
  eapply map_adjust_Forall; [exact Hw | exact Hfind|].
  destruct (well_ordered_find _ _ _ Hw Hfind) as [Hs Hall].
  unfold in_order, Push. simpl in *. split.
  - rewrite fmap_app. apply StronglySorted_app_2; [|done|repeat constructor].
    intros t1 t2 Ht1 ->%list_elem_of_singleton.
    apply list_elem_of_fmap in Ht1 as (d1 & -> & Hd1).
    rewrite Forall_forall in Hback. by apply Hback.
  - apply Forall_app. split; [done | by repeat constructor].
Qed.

Lemma Add_in_order_witness :
  Add keyC (item 1) S1_mid = Ok S1_mid /\
  exists s', Add keyA (item 30) S1_mid = Ok s' /\ well_ordered s'.
Proof.
  split.
  - apply (Add_in_order keyC (item 1) S1_mid). reflexivity.
  - apply (Add_in_order keyA (item 30) S1_mid).
    + unfold well_ordered, in_order. simpl. repeat constructor; by vm_compute.
    + intros q [= <-]. split; [by vm_compute|].
      simpl. repeat constructor; by vm_compute.
Defined.

(** ** The checks of MarkQueueAsFinished *)

Lemma MarkQueueAsFinished_well_ordered k q s :
  well_ordered s -> map_find k (queues_ s) = Some q -> finished q = false ->
  exists s', MarkQueueAsFinished k s = Ok s' /\ well_ordered s'.
Proof.
  intros Hw Hfind Hf. unfold MarkQueueAsFinished. rewrite Hfind, Hf.
  apply Dispatch_ordered. unfold well_ordered. simpl.
  eapply map_adjust_Forall; [exact Hw | exact Hfind|].
  by apply (well_ordered_find _ _ _ Hw Hfind).
Qed.

(** X7: on well-ordered queues MarkQueueAsFinished is fatal exactly
    when its key is not in the map or its queue is already finished; the
    Dispatch it runs adds no failure of its own. *)
Theorem MarkQueueAsFinished_fatal_iff k s :
  well_ordered s ->
  (MarkQueueAsFinished k s = Err CheckFailed <->
   map_find k (queues_ s) = None \/
   exists q, map_find k (queues_ s) = Some q /\ finished q = true) /\
  (forall e, MarkQueueAsFinished k s = Err e -> e = CheckFailed).
Proof.
  intros Hw.
  destruct (map_find k (queues_ s)) as [q|] eqn:Hfind.
  - destruct (finished q) eqn:Hf.
    + unfold MarkQueueAsFinished. rewrite Hfind, Hf.
      split; [|by intros e [= <-]]. split; [|done]. right. eauto.
    + destruct (MarkQueueAsFinished_well_ordered _ _ _ Hw Hfind Hf)
        as (s' & -> & _).
      split; [|done]. split; [done|].
      intros [[=]|(q' & [= <-] & Hq')]. congruence.
  - unfold MarkQueueAsFinished. rewrite Hfind.
    split; [|by intros e [= <-]]. split; [|done]. by left.
Qed.

Lemma MarkQueueAsFinished_fatal_iff_witness :
  MarkQueueAsFinished keyA finished_A = Err CheckFailed /\
  MarkQueueAsFinished keyC finished_A = Err CheckFailed.
Proof.
  assert (well_ordered finished_A) as Hw.
  { unfold well_ordered, in_order. simpl. repeat constructor; by vm_compute. }
  split.
  - apply (MarkQueueAsFinished_fatal_iff keyA finished_A Hw).
    right. by exists (mkQueue [item 5] true).
  - apply (MarkQueueAsFinished_fatal_iff keyC finished_A Hw). by left.
Defined.

(** ** Flush on well-ordered queues *)

Lemma map_find_unique k q qs :
  unique_keys qs -> (k, q) ∈ qs -> map_find k qs = Some q.
Proof.
  unfold unique_keys.
  induction qs as [|[k' q'] rest IH]; csimpl; intros Hnd Hin.
  - by apply elem_of_nil in Hin.
  - apply NoDup_cons in Hnd as [Hnotin Hnd].
    apply elem_of_cons in Hin as [[= -> ->]|Hin].
    + by rewrite decide_True.
    + rewrite decide_False; [by apply IH|].
      intros ->. apply Hnotin, list_elem_of_fmap. by exists (k', q).
Qed.

Lemma unfinished_elem_inv k qs :
  k ∈ unfinished_queues qs -> exists q, (k, q) ∈ qs /\ finished q = false.
Proof.
  unfold unfinished_queues.
  intros ([k' q'] & -> & [Hf Hin]%list_elem_of_filter)%list_elem_of_fmap.
  by exists q'.
Qed.

Lemma MarkQueuesAsFinished_well_ordered ks s :
  settled s -> well_ordered s ->
  unfinished_queues (queues_ s) = ks ->
  exists s', MarkQueuesAsFinished ks s = Ok s' /\ well_ordered s'.
Proof.
  revert s. induction ks as [|k ks IH]; intros s Hs Hw Hks; simpl; [eauto|].
  destruct Hs as [Hu Hs].
  destruct (unfinished_elem_inv k (queues_ s)) as (q & Hin & Hf);
    [rewrite Hks; left|].
  pose proof (map_find_unique _ _ _ Hu Hin) as Hfind.
  destruct (MarkQueueAsFinished_well_ordered _ _ _ Hw Hfind Hf)
    as (s1 & Hm & Hw1).
  rewrite Hm. simpl.
  pose proof (MarkQueueAsFinished_settles _ _ _ Hu Hm) as Hs1.
  apply IH; [done..|].
  apply MarkQueueAsFinished_inv in Hm as (q0 & _ & _ & Hd).
  apply Dispatch_carries in Hd. destruct Hd as (_ & Hf1 & _).
  { unfold unique_keys. simpl. by rewrite map_adjust_keys. }
  simpl in Hf1. by rewrite (map_adjust_finished_unfinished _ _ _ Hu Hks) in Hf1.
Qed.

(** X8: in a state reached by calls whose queues are well-ordered,
    Flush fails no check: every key it collected is still in the map and
    unfinished when its turn comes, and Flush returns with an empty
    map. *)
Theorem Flush_succeeds ops s :
  run ops init = Ok s ->
  well_ordered s ->
  exists s', Flush s = Ok s' /\ queues_ s' = [].
Proof.
  intros Hrun Hw.
  pose proof (run_settled _ _ _ settled_init Hrun) as Hs.
  destruct (MarkQueuesAsFinished_well_ordered _ _ Hs Hw eq_refl)
    as (s' & Hflush & _).
  exists s'. split; [done|].
  destruct (MarkQueuesAsFinished_accounts _ _ _ Hs eq_refl Hflush)
    as ([_ Hs'] & Hnone & _).
  by apply Hs'.
Qed.

Lemma Flush_succeeds_witness :
  exists s', Flush backlog = Ok s' /\ queues_ s' = [].
Proof.
  apply (Flush_succeeds backlog_ops); [by vm_compute|].
  unfold well_ordered, in_order. simpl. repeat constructor; by vm_compute.
Defined.

(** ** Every queue is served front first *)

Lemma fifo_with_trans p1 p2 s1 s2 s3 :
  fifo_with p1 s1 s2 -> fifo_with p2 s2 s3 ->
  fifo_with (fun k => p1 k ++ p2 k) s1 s3.
Proof.
  intros (n1 & Ht1 & H1) (n2 & Ht2 & H2). exists (n1 ++ n2).
  split; [by rewrite Ht2, Ht1, app_assoc|].
  intros k. unfold stream_events. rewrite omap_app.
  fold (stream_events k n1). fold (stream_events k n2).
  by rewrite (assoc_L (++)), H1, <- !(assoc_L (++)), H2.
Qed.

Lemma fifo_with_ext p1 p2 s s' :
  (forall k, p1 k = p2 k) -> fifo_with p1 s s' -> fifo_with p2 s s'.
Proof.
  intros Hext (new & Ht & H). exists new. split; [done|].
  intros k. by rewrite <- Hext.
Qed.

Lemma fifo_with_same s s' :
  trace s' = trace s ->
  (forall k, stream_items k (queues_ s') = stream_items k (queues_ s)) ->
  fifo_with (fun _ => []) s s'.
Proof.
  intros Htr Hq. exists []. rewrite Htr, app_nil_r. split; [done|].
  intros k. by rewrite Hq, app_nil_r.
Qed.

Lemma erased_stream_items k qs qs' :
  erased qs qs' -> stream_items k qs' = stream_items k qs.
Proof.
  induction 1 as [|e qs qs' _ IH|k0 q qs qs' Hq _ _ IH]; simpl.
  - done.
  - by rewrite IH.
  - rewrite Hq, IH. by destruct (decide _).
Qed.

Lemma stream_items_absent k qs : k ∉ fst <$> qs -> stream_items k qs = [].
Proof.
  induction qs as [|[k' q'] rest IH]; csimpl; [done|].
  intros [Hne Hnotin]%not_elem_of_cons.
  rewrite decide_False by done. by apply IH.
Qed.

Lemma map_pop_stream_items k q d qs qs' k0 :
  unique_keys qs -> (k, q) ∈ qs -> Peek q = Some d ->
  map_pop k qs = Some qs' ->
  stream_items k0 qs
  = (if decide (k = k0) then [d] else []) ++ stream_items k0 qs'.
Proof.
  unfold unique_keys. revert qs'.
  induction qs as [|[k' q'] rest IH]; intros qs' Hnd Hin Hpeek Hpop;
    simpl in Hpop; [discriminate|].
  csimpl in Hnd. apply NoDup_cons in Hnd as [Hnotin Hnd].
  destruct (decide (k = k')) as [<-|Hne].
  - assert (q' = q) as ->.
    { apply elem_of_cons in Hin as [[= ->]|Hin]; [done|].
      exfalso. apply Hnotin, list_elem_of_fmap. by exists (k, q). }
    unfold Pop in Hpop. unfold Peek in Hpeek.
    destruct (queue q) as [|d0 tl] eqn:Hq; [discriminate|].
    injection Hpeek as ->. injection Hpop as <-. simpl. rewrite Hq.
    by destruct (decide (k = k0)).
  - apply elem_of_cons in Hin as [[= -> ->]|Hin]; [done|].
    destruct (map_pop k rest) as [rest'|] eqn:Hr; [|discriminate].
    injection Hpop as <-. simpl.
    rewrite (IH _ Hnd Hin Hpeek eq_refl).
    destruct (decide (k = k0)) as [<-|?]; [|done].
    by rewrite decide_False by done.
Qed.

Lemma iteration_Again_fifo s s' :
  Dispatch_iteration s = Again s' -> serves_fifo s s'.
Proof.
  intros (c & qs1 & t & Hscan & Hpop & _ & _ & _ & Hout)
    %iteration_Again_effect Hu.
  pose proof (scan_done_erased _ _ _ _ _ Hscan) as Her.
  destruct (scan_some _ _ _ _ Hscan) as [[Hin Hpeek] _].
  pose proof (erased_unique_keys _ _ Her Hu) as Hu1.
  split; [unfold unique_keys; by rewrite (map_pop_keys _ _ _ Hpop)|].
  assert (exists e, trace s' = trace s ++ [e] /\
            event_item e = (next_queue_key c, next_data c))
    as (e & Htr & He).
  { destruct Hout as [[Htr _]|(Htr & _)]; eauto. }
  exists [e]. split; [done|]. intros k. rewrite app_nil_r.
  rewrite <- (erased_stream_items _ _ _ Her).
  rewrite (map_pop_stream_items _ _ _ _ _ k Hu1 Hin Hpeek Hpop).
  unfold stream_events. simpl. rewrite He. simpl.
  by destruct (decide (next_queue_key c = k)).
Qed.

Lemma iteration_Halt_fifo s s' :
  Dispatch_iteration s = Halt s' -> serves_fifo s s'.
Proof.
  intros (Htr & _ & Her & _)%iteration_Halt_effect Hu.
  split; [by eapply erased_unique_keys|].
  apply fifo_with_same; [done|]. intros k. by apply erased_stream_items.
Qed.

Lemma serves_fifo_trans s1 s2 s3 :
  serves_fifo s1 s2 -> serves_fifo s2 s3 -> serves_fifo s1 s3.
Proof.
  intros H12 H23 Hu1.
  destruct (H12 Hu1) as [Hu2 Hf12]. destruct (H23 Hu2) as [Hu3 Hf23].
  split; [done|].
  eapply fifo_with_ext; [|by eapply fifo_with_trans]. done.
Qed.

(** X9: Dispatch serves every queue front first.  For every key, the
    items that were queued under it are, in this order, the items of
    that key that Dispatch handed over or destroyed, followed by the
    items still queued: nothing is lost, reordered, duplicated or
    delivered under a key it was not queued under. *)
Theorem Dispatch_serves_fifo s s' :
  unique_keys (queues_ s) ->
  Dispatch s = Ok s' ->
  exists new,
    trace s' = trace s ++ new /\
    forall k, stream_items k (queues_ s)
              = stream_events k new ++ stream_items k (queues_ s').
Proof.
  intros Hu Hd.
  assert (serves_fifo s s') as Hf.
  { revert Hd. apply (Dispatch_loop_rel serves_fifo);
      eauto using serves_fifo_trans, iteration_Again_fifo,
                  iteration_Halt_fifo. }
  destruct (Hf Hu) as [_ (new & Htr & H)]. exists new. split; [done|].
  intros k. specialize (H k). by rewrite app_nil_r in H.
Qed.

Lemma Dispatch_serves_fifo_witness :
  exists new,
    trace (state_of (Dispatch S3_state)) = trace S3_state ++ new /\
    forall k, stream_items k (queues_ S3_state)
              = stream_events k new
                ++ stream_items k (queues_ (state_of (Dispatch S3_state))).
Proof.
  apply Dispatch_serves_fifo.
  - unfold unique_keys. apply (bool_decide_unpack _). by vm_compute.
  - by vm_compute.
Defined.

Lemma Dispatch_fifo s s' : Dispatch s = Ok s' -> serves_fifo s s'.
Proof.
  apply (Dispatch_loop_rel serves_fifo);
    eauto using serves_fifo_trans, iteration_Again_fifo, iteration_Halt_fifo.
Qed.

Lemma serves_fifo_refl s : serves_fifo s s.
Proof. intros Hu. split; [done|]. by apply fifo_with_same. Qed.

Lemma map_insert_stream_items k k0 qs :
  stream_items k0 (map_insert k Queue_default qs) = stream_items k0 qs.
Proof.
  induction qs as [|[k' q'] rest IH]; simpl.
  - by destruct (decide _).
  - destruct (key_ltb k k'); simpl; [by destruct (decide (k = k0))|].
    by rewrite IH.
Qed.

Lemma map_adjust_finished_stream_items k k0 qs :
  stream_items k0 (map_adjust set_finished k qs) = stream_items k0 qs.
Proof.
  induction qs as [|[k' q'] rest IH]; simpl; [done|].
  destruct (decide (k = k')); simpl; by rewrite ?IH.
Qed.

Lemma map_adjust_Push_stream_items k k0 d q qs :
  unique_keys qs -> map_find k qs = Some q ->
  stream_items k0 (map_adjust (Push d) k qs)
  = stream_items k0 qs ++ (if decide (k = k0) then [d] else []).
Proof.
  unfold unique_keys.
  induction qs as [|[k' q'] rest IH]; csimpl; [done|].
  intros [Hnotin Hnd]%NoDup_cons Hfind.
  destruct (decide (k = k')) as [<-|Hne]; simpl.
  - destruct (decide (k = k0)) as [<-|Hne0].
    + rewrite (stream_items_absent _ _ Hnotin). by rewrite !app_nil_r.
    + by rewrite app_nil_r.
  - rewrite (IH Hnd Hfind). by rewrite (assoc_L (++)).
Qed.

Lemma MarkQueueAsFinished_fifo k s s' :
  MarkQueueAsFinished k s = Ok s' -> serves_fifo s s'.
Proof.
  intros (q & _ & _ & Hd)%MarkQueueAsFinished_inv Hu.
  apply Dispatch_fifo in Hd. destruct Hd as [Hu' (new & Htr & H)].
  { unfold unique_keys. simpl. by rewrite map_adjust_keys. }
  split; [done|]. exists new. split; [done|].
  intros k0. specialize (H k0). simpl in H.
  by rewrite map_adjust_finished_stream_items in H.
Qed.

Lemma MarkQueuesAsFinished_fifo ks s s' :
  MarkQueuesAsFinished ks s = Ok s' -> serves_fifo s s'.
Proof.
  revert s. induction ks as [|k ks IH]; intros s H; simpl in H.
  - injection H as <-. apply serves_fifo_refl.
  - destruct (MarkQueueAsFinished k s) as [s1|] eqn:Hm; [|discriminate].
    simpl in H. eapply serves_fifo_trans; [|by apply IH].
    by eapply MarkQueueAsFinished_fifo.
Qed.

Lemma run_op_fifo op s s' :
  unique_keys (queues_ s) -> run_op op s = Ok s' ->
  unique_keys (queues_ s') /\ fifo_with (fun k => op_pushes k op s) s s'.
Proof.
  intros Hu H. destruct op as [k|k d|k| |]; simpl in H.
  - unfold AddQueue in H.
    destruct (map_find k (queues_ s)) eqn:Hfind; [discriminate|].
    injection H as <-. unfold set_queues. cbn [queues_]. split.
    + unfold unique_keys. rewrite map_insert_keys.
      apply NoDup_cons. split; [by apply map_find_None | done].
    + apply fifo_with_same; [done|]. intros k0. simpl.
      apply map_insert_stream_items.
  - unfold Add in H. destruct (map_find k (queues_ s)) as [q|] eqn:Hfind.
    + apply Dispatch_fifo in H. destruct H as [Hu' (new & Htr & H)].
      { unfold unique_keys. simpl. by rewrite map_adjust_keys. }
      split; [done|]. exists new. split; [done|].
      intros k0. specialize (H k0). simpl in H.
      rewrite (map_adjust_Push_stream_items _ _ _ _ _ Hu Hfind) in H.
      rewrite app_nil_r in H. rewrite <- H. simpl. by rewrite Hfind.
    + injection H as <-. split; [done|].
      eapply fifo_with_ext; [|by apply fifo_with_same].
      intros k0. simpl. rewrite Hfind. by destruct (decide _).
  - by apply (MarkQueueAsFinished_fifo _ _ _ H).
  - by apply (MarkQueuesAsFinished_fifo _ _ _ H).
  - destruct (GetBlocker s); [|discriminate]. injection H as <-.
    split; [done|]. by apply fifo_with_same.
Qed.

Lemma run_fifo ops s s' :
  unique_keys (queues_ s) -> run ops s = Ok s' ->
  unique_keys (queues_ s') /\ fifo_with (fun k => pushes k ops s) s s'.
Proof.
  revert s. induction ops as [|op ops IH]; intros s Hu H; simpl in H.
  - injection H as <-. split; [done|]. by apply fifo_with_same.
  - destruct (run_op op s) as [s1|] eqn:Hop; [|discriminate]. simpl in H.
    destruct (run_op_fifo _ _ _ Hu Hop) as [Hu1 Hf1].
    destruct (IH _ Hu1 H) as [Hu' Hf']. split; [done|].
    eapply fifo_with_ext; [|by eapply fifo_with_trans].
    intros k. simpl. by rewrite Hop.
Qed.

(** X10: along any sequence of calls the merger neither loses,
    reorders, duplicates nor invents an item.  For every key, the items
    pushed by the Add calls on that key while it was registered are, in
    the order of the pushes, the items of that key handed over or
    destroyed so far, followed by the items still in its queue. *)
Theorem pushes_leave_in_order ops s :
  run ops init = Ok s ->
  forall k, pushes k ops init
            = stream_events k (trace s) ++ stream_items k (queues_ s).
Proof.
  intros Hrun k.
  destruct (run_fifo ops init s) as [_ (new & Htr & H)];
    [constructor | done |].
  simpl in Htr. rewrite Htr. by rewrite <- H.
Qed.

Lemma pushes_leave_in_order_witness :
  pushes keyB (backlog_ops ++ [OpFlush]) init
  = stream_events keyB (trace backlog_flushed)
    ++ stream_items keyB (queues_ backlog_flushed).
Proof. apply pushes_leave_in_order. by vm_compute. Defined.

(** On the backlog: three pushes on B, none of them out yet, and the
    single push on A. *)
Example backlog_pushes :
  pushes keyB backlog_ops init = [item 1; item 2; item 3] /\
  stream_items keyB (queues_ backlog) = [item 1; item 2; item 3] /\
  pushes keyA backlog_ops init = [item 10].
Proof. by vm_compute. Qed.

(** ** The loop ends, and a stalled Dispatch stays put *)

Lemma Dispatch_loop_fuel fuel1 fuel2 s :
  (pending_count (queues_ s) < fuel1)%nat ->
  (pending_count (queues_ s) < fuel2)%nat ->
  Dispatch_loop fuel1 s = Dispatch_loop fuel2 s.
Proof.
  revert fuel2 s. induction fuel1 as [|fuel1 IH]; intros fuel2 s H1 H2; [lia|].
  destruct fuel2 as [|fuel2]; [lia|]. simpl.
  destruct (Dispatch_iteration s) as [s'|s'|e] eqn:Hit; [|done..].
  apply iteration_Again_pending in Hit. apply IH; lia.
Qed.

(** X11: the while (true) loop of Dispatch ends.  With n items queued it
    takes at most n + 1 turns: any larger bound on the number of turns
    gives the same result, and that result is a return or a failed
    CHECK, never a Pop waiting on an empty queue. *)
Theorem Dispatch_terminates s fuel :
  (pending_count (queues_ s) < fuel)%nat ->
  Dispatch_loop fuel s = Dispatch s /\
  Dispatch s <> Err Hang.
Proof.
  intros Hlt. split.
  - apply Dispatch_loop_fuel; [done | lia].
  - intros H. by apply Dispatch_Err in H.
Qed.

Lemma Dispatch_terminates_witness :
  Dispatch_loop 100 backlog = Dispatch backlog /\ Dispatch backlog <> Err Hang.
Proof. apply Dispatch_terminates. vm_compute. lia. Defined.

Lemma scan_blocked_again last next qs qs' b :
  scan last next qs = ScanBlocked qs' b ->
  scan last next qs' = ScanBlocked qs' b.
Proof.
  revert next qs'. induction qs as [|[k q] rest IH]; intros next qs' H.
  - inversion H.
  - scan_entry H q; try discriminate.
    + eauto.
    + injection H as <- <-. rewrite scan_cons. by rewrite Hq, Hf.
    + apply keep_blocked in H as (qs'' & -> & H).
      rewrite scan_cons, Hq. rewrite (proj2 (Z.leb_le _ _) Hle).
      by rewrite (IH _ _ H).
Qed.

Lemma scan_done_again last next qs qs' n :
  scan last next qs = ScanDone qs' n ->
  scan last next qs' = ScanDone qs' n.
Proof.
  revert next qs'. induction qs as [|[k q] rest IH]; intros next qs' H.
  - by inversion H.
  - scan_entry H q; try discriminate.
    + eauto.
    + apply keep_done in H as (qs'' & -> & H).
      rewrite scan_cons, Hq. rewrite (proj2 (Z.leb_le _ _) Hle).
      by rewrite (IH _ _ H).
Qed.

Lemma iteration_Halt_again s s' :
  Dispatch_iteration s = Halt s' -> Dispatch_iteration s' = Halt s'.
Proof.
  intros Hit. pose proof (Dispatch_iteration_cases s) as Hc.
  rewrite Hit in Hc. inversion Hc; subst; unfold Dispatch_iteration; simpl.
  - match goal with H : scan _ _ _ = _ |- _ =>
      rewrite (scan_blocked_again _ _ _ _ _ H) end.
    done.
  - done.
  - match goal with
    | H : scan _ _ _ = _, G : GetCommonStartTime _ _ = _ |- _ =>
        destruct (GetCommonStartTime_inv _ _ _ _ G)
          as (Hqs & Hl & _ & _ & Hlook & _);
        pose proof (scan_done_again _ _ _ _ _ H) as Hagain
    end.
    simpl in Hqs, Hl. rewrite Hqs, Hl, Hagain.
    unfold GetCommonStartTime. simpl. rewrite Hlook.
    rewrite (proj2 (Z.leb_gt _ _)) by done.
    rewrite (proj2 (Z.ltb_lt _ _)) by done.
    match goal with H : finished _ = false |- _ => rewrite H end.
    simpl. unfold CannotMakeProgress, set_blocker, set_queues. simpl.
    destruct s1; simpl in *. by subst.
Qed.

(** X12: a Dispatch that has returned has nothing left to do.  Run
    again on the state it returned, with no call in between, Dispatch
    returns that very state: no delivery, no drop, the same blocker. *)
Theorem Dispatch_stalled s s' : Dispatch s = Ok s' -> Dispatch s' = Ok s'.
Proof.
  intros (s0 & Hit)%Dispatch_loop_last.
  apply iteration_Halt_again in Hit.
  unfold Dispatch. simpl. by rewrite Hit.
Qed.

Lemma Dispatch_stalled_witness :
  Dispatch (state_of (Dispatch thin_state)) = Ok (state_of (Dispatch thin_state)).
Proof. apply (Dispatch_stalled thin_state). by vm_compute. Defined.

(** ** From the turns of the loop to sequences of calls *)

(** A reflexive and transitive relation that holds across every turn of
    the loop and across every change of the queues alone holds across
    every sequence of calls. *)
Lemma run_rel (R : State -> State -> Prop) :
  (forall s, R s s) ->
  (forall s1 s2 s3, R s1 s2 -> R s2 s3 -> R s1 s3) ->
  (forall s qs, R s (set_queues qs s)) ->
  (forall s s', Dispatch_iteration s = Again s' -> R s s') ->
  (forall s s', Dispatch_iteration s = Halt s' -> R s s') ->
  forall ops s s', run ops s = Ok s' -> R s s'.
Proof.
  intros Hrefl Htrans Hqs Hagain Hhalt.
  assert (forall s s', Dispatch s = Ok s' -> R s s') as Hdispatch
    by (intros s s'; by apply Dispatch_loop_rel).
  assert (forall k s s', MarkQueueAsFinished k s = Ok s' -> R s s') as Hmark.
  { intros k s s' (q & _ & _ & Hd)%MarkQueueAsFinished_inv.
    eapply Htrans; [apply Hqs | by apply Hdispatch]. }
  assert (forall ks s s', MarkQueuesAsFinished ks s = Ok s' -> R s s') as Hmarks.
  { induction ks as [|k ks IH]; intros s s' H; simpl in H.
    - injection H as <-. apply Hrefl.
    - destruct (MarkQueueAsFinished k s) as [s1|] eqn:Hm; [|discriminate].
      simpl in H. eapply Htrans; [by eapply Hmark | by apply IH]. }
  assert (forall op s s', run_op op s = Ok s' -> R s s') as Hop.
  { intros op s s' H. destruct op as [k|k d|k| |]; simpl in H.
    - unfold AddQueue in H. destruct (map_find k (queues_ s)); [discriminate|].
      injection H as <-. apply Hqs.
    - unfold Add in H. destruct (map_find k (queues_ s)).
      + eapply Htrans; [apply Hqs | by apply Hdispatch].
      + injection H as <-. apply Hrefl.
    - by eapply Hmark.
    - by eapply Hmarks.
    - destruct (GetBlocker s); [|discriminate]. injection H as <-.
      apply Hrefl. }
  induction ops as [|op ops IH]; intros s s' H; simpl in H.
  - injection H as <-. apply Hrefl.
  - destruct (run_op op s) as [s1|] eqn:H1; [|discriminate].
    simpl in H. eapply Htrans; [by eapply Hop | by apply IH].
Qed.

(** ** last_dispatched_time_ and the deliveries *)

(** X13: after any sequence of calls last_dispatched_time_ is the time
    stamp of the item handed to a sink last, and Time::min() as long as
    nothing was delivered; dropping an item leaves it alone. *)
Theorem last_dispatched_time_is_last_delivery ops s :
  run ops init = Ok s ->
  last_dispatched_time_ s = last_delivered s.
Proof.
  intros Hrun.
  assert (forall s0 s1, run ops s0 = Ok s1 ->
            last_dispatched_time_ s0 = last_delivered s0 ->
            last_dispatched_time_ s1 = last_delivered s1) as Hinv;
    [|by apply (Hinv init)].
  clear. apply (run_rel (fun s s' =>
           last_dispatched_time_ s = last_delivered s ->
           last_dispatched_time_ s' = last_delivered s')).
  - done.
  - auto.
  - done.
  - intros s s' (c & qs1 & t & _ & _ & _ & _ & _ & Hout)%iteration_Again_effect.
    unfold last_delivered.
    destruct Hout as [[Htr ->]|(Htr & -> & _)].
    + rewrite (delivery_times_Delivered _ _ _ _ Htr), last_snoc. done.
    + by rewrite (delivery_times_Dropped _ _ _ _ Htr).
  - intros s s' (Htr & -> & _)%iteration_Halt_effect.
    unfold last_delivered. by rewrite (delivery_times_same _ _ Htr).
Qed.

Lemma last_dispatched_time_is_last_delivery_witness :
  last_dispatched_time_ S1_end = last_delivered S1_end.
Proof.
  apply (last_dispatched_time_is_last_delivery (S1_first ++ S1_second)).
  by vm_compute.
Defined.

(** ** What is destroyed *)

(** X14: Dispatch destroys an item only in one situation: the item is
    older than the common start time of its trajectory and the item
    right behind it in its queue is not later than that time.  So the
    last item of a queue and any item at or after the common start time
    are never destroyed. *)
Theorem dropped_only_before_start s s' k d :
  Dispatch_iteration s = Again s' ->
  trace s' = trace s ++ [Dropped k d] ->
  exists t q d' rest,
    common_start_time_per_trajectory_ s' !! trajectory_id k = Some t /\
    (k, q) ∈ queues_ s /\
    queue q = d :: d' :: rest /\
    GetTime d < t /\ GetTime d' <= t /\
    last_dispatched_time_ s' = last_dispatched_time_ s.
Proof.
  intros Hit Htr. pose proof (Dispatch_iteration_cases s) as Hc.
  rewrite Hit in Hc. inversion Hc; subst; simpl in *;
    match goal with
    | H : scan _ _ _ = _, G : GetCommonStartTime _ _ = _ |- _ =>
        pose proof (scan_done_erased _ _ _ _ _ H) as Her;
        destruct (scan_some _ _ _ _ H) as [[Hin Hpeek] _];
        destruct (GetCommonStartTime_inv _ _ _ _ G)
          as (_ & Hl & _ & Htr1 & Hlook & _)
    end;
    rewrite Htr1 in Htr; apply app_inv_head in Htr;
    try discriminate; injection Htr as <- <-.
  exists common_start_time, (next_queue c), d', rest.
  repeat split; auto. by eapply erased_elem_of.
Qed.

Lemma dropped_only_before_start_witness :
  exists t q d' rest,
    common_start_time_per_trajectory_
      (mkState [(keyA, mkQueue [item 2; item 3] false);
                (keyB, mkQueue [item 50] false)]
               Time_min {[ 0 := 50 ]} keyB [Dropped keyA (item 1)])
      !! trajectory_id keyA = Some t /\
    (keyA, q) ∈ [(keyA, mkQueue [item 1; item 2; item 3] false);
                 (keyB, mkQueue [item 50] false)] /\
    queue q = item 1 :: d' :: rest /\
    GetTime (item 1) < t /\ GetTime d' <= t /\
    Time_min = Time_min.
Proof.
  apply (dropped_only_before_start
           (mkState [(keyA, mkQueue [item 1; item 2; item 3] false);
                     (keyB, mkQueue [item 50] false)]
                    Time_min ∅ keyB [])
           (mkState [(keyA, mkQueue [item 2; item 3] false);
                     (keyB, mkQueue [item 50] false)]
                    Time_min {[ 0 := 50 ]} keyB [Dropped keyA (item 1)])
           keyA (item 1)); by vm_compute.
Defined.

(** X15: after any sequence of calls, every item that Dispatch has taken
    from a queue and destroyed (every Dropped event of the trace) is
    older than the common start time cached for its trajectory.  An item
    given to Add under an unregistered key never enters a queue and
    leaves no event. *)
Theorem drops_are_before_start ops s :
  run ops init = Ok s ->
  Forall (cold_drop (common_start_time_per_trajectory_ s)) (trace s).
Proof.
  intros Hrun.
  assert (forall s0 s1, run ops s0 = Ok s1 ->
            common_start_time_per_trajectory_ s0
              ⊆ common_start_time_per_trajectory_ s1 /\
            (Forall (cold_drop (common_start_time_per_trajectory_ s0)) (trace s0) ->
             Forall (cold_drop (common_start_time_per_trajectory_ s1)) (trace s1)))
    as Hinv; [|by apply (Hinv init)].
  clear. apply (run_rel (fun s s' =>
           common_start_time_per_trajectory_ s
             ⊆ common_start_time_per_trajectory_ s' /\
           (Forall (cold_drop (common_start_time_per_trajectory_ s)) (trace s) ->
            Forall (cold_drop (common_start_time_per_trajectory_ s')) (trace s')))).
  - done.
  - intros s1 s2 s3 [Hc1 H1] [Hc2 H2]. split; [by etrans | auto].
  - done.
  - intros s s' (c & qs1 & t & _ & _ & Hcache & Hlook & _ & Hout)
      %iteration_Again_effect.
    split; [done|]. intros Hall.
    assert (Forall (cold_drop (common_start_time_per_trajectory_ s')) (trace s))
      as Hall'.
    { eapply Forall_impl; [exact Hall|]. intros [k d|k d]; simpl; [done|].
      intros (t0 & Ht0 & Hlt). exists t0. split; [|done].
      by eapply lookup_weaken. }
    destruct Hout as [[-> _]|(-> & _ & Hlt)]; apply Forall_app; split;
      try done; repeat constructor. simpl. eauto.
  - intros s s' (-> & _ & _ & Hcache & _)%iteration_Halt_effect.
    split; [done|]. intros Hall.
    eapply Forall_impl; [exact Hall|]. intros [k d|k d]; simpl; [done|].
    intros (t0 & Ht0 & Hlt). exists t0. split; [|done].
    by eapply lookup_weaken.
Qed.

Lemma drops_are_before_start_witness :
  Forall (cold_drop (common_start_time_per_trajectory_ backlog_flushed))
         (trace backlog_flushed).
Proof.
  apply (drops_are_before_start (backlog_ops ++ [OpFlush])). by vm_compute.
Defined.

(** ** Finishing a queue twice *)

Lemma map_pop_elem k qs qs' k0 q' :
  map_pop k qs = Some qs' -> (k0, q') ∈ qs' ->
  exists q, (k0, q) ∈ qs /\ finished q' = finished q.
Proof.
  revert qs'. induction qs as [|[k1 q1] rest IH]; intros qs' Hpop Hin;
    simpl in Hpop; [discriminate|].
  destruct (decide (k = k1)).
  - unfold Pop in Hpop. destruct (queue q1); [discriminate|].
    injection Hpop as <-.
    apply elem_of_cons in Hin as [[= -> ->]|Hin].
    + exists q1. split; [left | done].
    + exists q'. split; [by right | done].
  - destruct (map_pop k rest) as [rest'|]; [|discriminate].
    injection Hpop as <-.
    apply elem_of_cons in Hin as [[= -> ->]|Hin].
    + exists q1. split; [left | done].
    + destruct (IH _ eq_refl Hin) as (q & Hq & Hf).
      exists q. split; [by right | done].
Qed.

Lemma Dispatch_finished_at k s s' :
  Dispatch s = Ok s' -> finished_at k (queues_ s) -> finished_at k (queues_ s').
Proof.
  apply (Dispatch_loop_rel
           (fun s s' => finished_at k (queues_ s) -> finished_at k (queues_ s'))).
  - auto.
  - intros s1 s2 (c & qs1 & t & Hscan & Hpop & _)%iteration_Again_effect Hfin q Hin.
    destruct (map_pop_elem _ _ _ _ _ Hpop Hin) as (q0 & Hin0 & ->).
    apply Hfin. eapply erased_elem_of; [|exact Hin0].
    by eapply scan_done_erased.
  - intros s1 s2 (_ & _ & Her & _)%iteration_Halt_effect Hfin q Hin.
    apply Hfin. by eapply erased_elem_of.
Qed.

Lemma map_adjust_finished_at k qs :
  unique_keys qs -> finished_at k (map_adjust set_finished k qs).
Proof.
  unfold unique_keys, finished_at.
  induction qs as [|[k' q'] rest IH]; csimpl; intros Hnd q Hin.
  - by apply elem_of_nil in Hin.
  - apply NoDup_cons in Hnd as [Hnotin Hnd].
    destruct (decide (k = k')) as [<-|Hne].
    + apply elem_of_cons in Hin as [[= ->]|Hin]; [done|].
      exfalso. apply Hnotin, list_elem_of_fmap. by exists (k, q).
    + apply elem_of_cons in Hin as [[= -> ->]|Hin]; [done|]. by apply IH.
Qed.

(** X16: a queue can be finished once.  After MarkQueueAsFinished has
    returned for a key, a second MarkQueueAsFinished for that key is
    fatal, whether Dispatch has erased the queue in between or not. *)
Theorem MarkQueueAsFinished_twice k s s' :
  unique_keys (queues_ s) ->
  MarkQueueAsFinished k s = Ok s' ->
  MarkQueueAsFinished k s' = Err CheckFailed.
Proof.
  intros Hu (q & _ & _ & Hd)%MarkQueueAsFinished_inv.
  apply (Dispatch_finished_at k) in Hd;
    [|by apply map_adjust_finished_at].
  unfold MarkQueueAsFinished.
  destruct (map_find k (queues_ s')) as [q'|] eqn:Hfind; [|done].
  by rewrite (Hd q' (map_find_Some _ _ _ Hfind)).
Qed.

Lemma MarkQueueAsFinished_twice_witness :
  MarkQueueAsFinished keyA finished_A = Err CheckFailed.
Proof.
  apply (MarkQueueAsFinished_twice keyA
           (state_of (run [OpAddQueue keyA; OpAddQueue keyB;
                           OpAdd keyA (item 5)] init))).
  - unfold unique_keys. apply (bool_decide_unpack _). by vm_compute.
  - by vm_compute.
Defined.

(** ** Which queues Dispatch erases *)

(** X17: Dispatch erases finished queues only and changes no flag: the
    unfinished queues are the same, in the same order, before and after,
    and the keys left are among the keys found. *)
Theorem Dispatch_keeps_unfinished s s' :
  unique_keys (queues_ s) ->
  Dispatch s = Ok s' ->
  unfinished_queues (queues_ s') = unfinished_queues (queues_ s) /\
  (fst <$> queues_ s') `sublist_of` (fst <$> queues_ s) /\
  (forall k q, (k, q) ∈ queues_ s -> k ∉ fst <$> queues_ s' ->
               finished q = true).
Proof.
  intros Hu Hd.
  destruct (Dispatch_carries _ _ Hd Hu) as (_ & Hf & _).
  split; [done|]. split; [by apply Dispatch_keys_sublist|].
  intros k q Hin Hgone. destruct (finished q) eqn:Hq; [done|].
  exfalso. apply Hgone, unfinished_keys. rewrite Hf.
  by eapply unfinished_elem.
Qed.

Lemma Dispatch_keeps_unfinished_witness :
  unfinished_queues (queues_ (state_of (Dispatch S3_state)))
    = unfinished_queues (queues_ S3_state) /\
  (fst <$> queues_ (state_of (Dispatch S3_state)))
    `sublist_of` (fst <$> queues_ S3_state) /\
  (forall k q, (k, q) ∈ queues_ S3_state ->
               k ∉ fst <$> queues_ (state_of (Dispatch S3_state)) ->
               finished q = true).
Proof.
  apply Dispatch_keeps_unfinished.
  - unfold unique_keys. apply (bool_decide_unpack _). by vm_compute.
  - by vm_compute.
Defined.

(** ** The destructor *)

Lemma forallb_finished qs :
  forallb (fun e => finished (snd e)) qs = true <-> unfinished_queues qs = [].
Proof.
  unfold unfinished_queues.
  induction qs as [|[k q] rest IH]; simpl; [done|].
  rewrite filter_cons. simpl. destruct (finished q); simpl; [done|].
  split; discriminate.
Qed.

(** X18: after any sequence of calls the CHECKs of the destructor pass
    exactly when the map of queues is empty.  A queue that is still in
    the map after the last call makes the destructor fatal: either it is
    not finished, or some other queue is not. *)
Theorem Destructor_ok_iff_empty ops s :
  run ops init = Ok s ->
  (Destructor s = Ok tt <-> queues_ s = []) /\
  (Destructor s <> Ok tt -> Destructor s = Err CheckFailed).
Proof.
  intros Hrun.
  destruct (run_settled _ _ _ settled_init Hrun) as [_ Hs].
  unfold Destructor.
  destruct (forallb _ (queues_ s)) eqn:Hall.
  - split; [|done]. split; [|done]. intros _.
    by apply Hs, forallb_finished.
  - split; [|done]. split; [done|]. intros Hnil.
    rewrite Hnil in Hall. discriminate.
Qed.

Lemma Destructor_ok_iff_empty_witness :
  Destructor backlog = Err CheckFailed /\ Destructor backlog_flushed = Ok tt.
Proof.
  split.
  - apply (Destructor_ok_iff_empty backlog_ops); by vm_compute.
  - apply (Destructor_ok_iff_empty (backlog_ops ++ [OpFlush]));
      by vm_compute.
Defined.

(** ** After Flush *)

(** X19: once Flush has returned, the merger is empty and inert: every
    further Add is ignored whatever its key, a further Flush does
    nothing, and MarkQueueAsFinished and GetBlocker are fatal, until a
    queue is registered again. *)
Theorem inert_after_Flush ops s s' :
  run ops init = Ok s ->
  Flush s = Ok s' ->
  (forall k d, Add k d s' = Ok s') /\
  Flush s' = Ok s' /\
  (forall k, MarkQueueAsFinished k s' = Err CheckFailed) /\
  GetBlocker s' = Err CheckFailed.
Proof.
  intros Hrun Hflush.
  pose proof (run_settled _ _ _ settled_init Hrun) as Hs.
  destruct (MarkQueuesAsFinished_accounts _ _ _ Hs eq_refl Hflush)
    as ([_ Hs'] & Hnone & _).
  specialize (Hs' Hnone).
  unfold Add, Flush, MarkQueueAsFinished, GetBlocker. rewrite Hs'. simpl.
  by repeat split.
Qed.

Lemma inert_after_Flush_witness :
  (forall k d, Add k d backlog_flushed = Ok backlog_flushed) /\
  Flush backlog_flushed = Ok backlog_flushed /\
  (forall k, MarkQueueAsFinished k backlog_flushed = Err CheckFailed) /\
  GetBlocker backlog_flushed = Err CheckFailed.
Proof. apply (inert_after_Flush backlog_ops backlog); by vm_compute. Defined.

(** ** Holding back *)

Lemma scan_with_empty_unfinished last next qs k q :
  (k, q) ∈ qs -> queue q = [] -> finished q = false ->
  scan last next qs = ScanFatal \/
  exists qs' b, scan last next qs = ScanBlocked qs' b.
Proof.
  intros Hin Hq Hf. destruct (scan last next qs) as [|qs' b|qs' n] eqn:Hscan;
    [by left | right; eauto |].
  exfalso.
  pose proof (scan_done_nonempty _ _ _ _ _ Hscan) as Hne.
  pose proof (scan_done_erased _ _ _ _ _ Hscan) as Her.
  assert ((k, q) ∈ qs') as Hin'.
  { clear Hscan Hne. induction Her as [|e qs qs' _ IH|k0 q0 qs qs' Hq0 Hf0 _ IH].
    - done.
    - apply elem_of_cons in Hin as [->|Hin]; [left | right; auto].
    - apply elem_of_cons in Hin as [[= -> ->]|Hin]; [congruence | auto]. }
  rewrite Forall_forall in Hne. by apply (Hne _ Hin').
Qed.

(** X20: as long as some queue of the map is empty and not finished,
    Dispatch holds everything back: unless an old front item makes it
    fatal, it returns after one scan without handing over or destroying
    anything, leaving last_dispatched_time_, the common start times and
    the queued items as they were. *)
Theorem Dispatch_holds_back s k q :
  (k, q) ∈ queues_ s -> queue q = [] -> finished q = false ->
  Dispatch s = Err CheckFailed \/
  exists s',
    Dispatch s = Ok s' /\
    trace s' = trace s /\
    last_dispatched_time_ s' = last_dispatched_time_ s /\
    common_start_time_per_trajectory_ s' = common_start_time_per_trajectory_ s /\
    pending_items (queues_ s') = pending_items (queues_ s).
Proof.
  intros Hin Hq Hf.
  destruct (scan_with_empty_unfinished (last_dispatched_time_ s) None _ _ _
              Hin Hq Hf) as [Hscan|(qs' & b & Hscan)].
  - left.
    assert (Dispatch_iteration s = Abort CheckFailed) as Hit
      by (unfold Dispatch_iteration; by rewrite Hscan).
    unfold Dispatch. cbn [Dispatch_loop]. by rewrite Hit.
  - right.
    assert (Dispatch_iteration s
            = Halt (CannotMakeProgress b (set_queues qs' s))) as Hit
      by (unfold Dispatch_iteration; by rewrite Hscan).
    eexists. unfold Dispatch. cbn [Dispatch_loop]. rewrite Hit.
    split; [done|]. simpl. repeat split.
    by apply erased_pending_items, (scan_blocked_erased _ _ _ _ _ Hscan).
Qed.

Lemma Dispatch_holds_back_witness :
  Dispatch backlog = Err CheckFailed \/
  exists s',
    Dispatch backlog = Ok s' /\
    trace s' = trace backlog /\
    last_dispatched_time_ s' = last_dispatched_time_ backlog /\
    common_start_time_per_trajectory_ s'
      = common_start_time_per_trajectory_ backlog /\
    pending_items (queues_ s') = pending_items (queues_ backlog).
Proof.
  apply (Dispatch_holds_back backlog keyC (mkQueue [] false));
    [|done..].
  vm_compute. repeat constructor.
Defined.

(** ** What becomes of an item given to Add *)

Lemma stream_items_elem k q qs :
  unique_keys qs -> (k, q) ∈ qs -> stream_items k qs = queue q.
Proof.
  unfold unique_keys.
  induction qs as [|[k' q'] rest IH]; csimpl; intros Hnd Hin.
  - by apply elem_of_nil in Hin.
  - apply NoDup_cons in Hnd as [Hnotin Hnd].
    apply elem_of_cons in Hin as [[= -> ->]|Hin].
    + rewrite decide_True by done.
      by rewrite (stream_items_absent _ _ Hnotin), app_nil_r.
    + rewrite decide_False; [by apply IH|].
      intros ->. apply Hnotin, list_elem_of_fmap. by exists (k, q).
Qed.

Lemma stream_events_filter k evs :
  stream_events k evs
  = (fun e => snd (event_item e)) <$> filter (fun e => fst (event_item e) = k) evs.
Proof.
  induction evs as [|e evs IH]; [done|].
  rewrite filter_cons. unfold stream_events in *. csimpl.
  destruct (decide _); csimpl; by rewrite IH.
Qed.

Lemma last_stream_event_app k evs1 evs2 :
  last_stream_event k (evs1 ++ evs2)
  = match last_stream_event k evs2 with
    | Some e => Some e
    | None => last_stream_event k evs1
    end.
Proof. unfold last_stream_event. by rewrite filter_app, last_app. Qed.

Lemma last_stream_event_None k evs :
  last_stream_event k evs = None -> stream_events k evs = [].
Proof.
  unfold last_stream_event. rewrite stream_events_filter.
  by intros ->%last_None.
Qed.

(** The last event of a key whose events end with item [d], when it is
    a delivery, is the delivery of [d]. *)
Lemma ends_delivered_last k evs l d :
  stream_events k evs = l ++ [d] -> ends_delivered k evs ->
  last_stream_event k evs = Some (Delivered k d).
Proof.
  unfold ends_delivered, last_stream_event. rewrite stream_events_filter.
  intros Hev Hend.
  assert (last ((fun e => snd (event_item e))
                  <$> filter (fun e => fst (event_item e) = k) evs) = Some d)
    as Hlast by (by rewrite Hev, last_snoc).
  rewrite fmap_last in Hlast.
  destruct (last (filter _ evs)) as [e|] eqn:He; [|done].
  injection Hlast as Hd.
  assert (fst (event_item e) = k) as Hk.
  { apply last_Some_elem_of in He. by apply list_elem_of_filter in He as [? _]. }
  destruct e as [k' d'|k' d']; [|done]. simpl in *. by subst.
Qed.

(** The turn that destroys an item leaves the item behind it at the
    front of the same queue. *)
Lemma iteration_Again_event s s' :
  Dispatch_iteration s = Again s' ->
  exists k d q,
    (k, q) ∈ queues_ s /\ Peek q = Some d /\
    (trace s' = trace s ++ [Delivered k d] \/
     (trace s' = trace s ++ [Dropped k d] /\
      exists d' rest, queue q = d :: d' :: rest)).
Proof.
  intros Hit. pose proof (Dispatch_iteration_cases s) as Hc.
  rewrite Hit in Hc. inversion Hc; subst; simpl;
    match goal with
    | H : scan _ _ _ = _, G : GetCommonStartTime _ _ = _ |- _ =>
        pose proof (scan_done_erased _ _ _ _ _ H) as Her;
        destruct (scan_some _ _ _ _ H) as [[Hin Hpeek] _];
        destruct (GetCommonStartTime_inv _ _ _ _ G)
          as (_ & _ & _ & -> & _)
    end;
    exists (next_queue_key c), (next_data c), (next_queue c);
    (split; [by eapply erased_elem_of|]); (split; [done|]);
    [by left | by left | right; eauto].
Qed.

Lemma iteration_Again_to_the_end k s s' :
  Dispatch_iteration s = Again s' -> serves_to_the_end k s s'.
Proof.
  intros Hit Hu.
  destruct (iteration_Again_fifo _ _ Hit Hu) as [Hu' (new & Htr & Hfifo)].
  split; [done|]. exists new. split; [done|].
  split; [intros k0; specialize (Hfifo k0); by rewrite app_nil_r in Hfifo|].
  intros Hempty.
  destruct (iteration_Again_event _ _ Hit)
    as (kc & dc & q & Hin & Hpeek & [Htr'|[Htr' (d' & rest & Hq)]]);
    rewrite Htr' in Htr; apply app_inv_head in Htr; subst new;
    unfold ends_delivered, last_stream_event; rewrite filter_cons; simpl;
    destruct (decide (kc = k)) as [->|Hne]; try done.
  specialize (Hfifo k). rewrite app_nil_r in Hfifo.
  rewrite (stream_items_elem _ _ _ Hu Hin), Hq, Hempty in Hfifo.
  unfold stream_events in Hfifo. simpl in Hfifo.
  rewrite decide_True in Hfifo by done. discriminate.
Qed.

Lemma iteration_Halt_to_the_end k s s' :
  Dispatch_iteration s = Halt s' -> serves_to_the_end k s s'.
Proof.
  intros Hit Hu.
  destruct (iteration_Halt_effect _ _ Hit) as (Htr & _ & Her & _).
  split; [by eapply erased_unique_keys|].
  exists []. rewrite Htr, app_nil_r. split; [done|].
  split; [intros k0; by rewrite (erased_stream_items _ _ _ Her)|done].
Qed.

Lemma serves_to_the_end_trans k s1 s2 s3 :
  serves_to_the_end k s1 s2 -> serves_to_the_end k s2 s3 ->
  serves_to_the_end k s1 s3.
Proof.
  intros H12 H23 Hu1.
  destruct (H12 Hu1) as [Hu2 (n1 & Ht1 & Hf1 & He1)].
  destruct (H23 Hu2) as [Hu3 (n2 & Ht2 & Hf2 & He2)].
  split; [done|]. exists (n1 ++ n2).
  split; [by rewrite Ht2, Ht1, app_assoc|]. split.
  - intros k0. unfold stream_events. rewrite omap_app.
    fold (stream_events k0 n1). fold (stream_events k0 n2).
    by rewrite Hf1, Hf2, (assoc_L (++)).
  - intros Hempty. specialize (He2 Hempty).
    unfold ends_delivered in *. rewrite last_stream_event_app.
    destruct (last_stream_event k n2) as [e|] eqn:Hl2; [done|].
    apply He1. by rewrite Hf2, (last_stream_event_None _ _ Hl2), Hempty.
Qed.

Lemma Dispatch_to_the_end k s s' :
  Dispatch s = Ok s' -> serves_to_the_end k s s'.
Proof.
  apply (Dispatch_loop_rel (serves_to_the_end k));
    eauto using serves_to_the_end_trans, iteration_Again_to_the_end,
                iteration_Halt_to_the_end.
Qed.

Lemma MarkQueueAsFinished_to_the_end k k0 s s' :
  MarkQueueAsFinished k0 s = Ok s' -> serves_to_the_end k s s'.
Proof.
  intros (q & _ & _ & Hd)%MarkQueueAsFinished_inv Hu.
  apply (Dispatch_to_the_end k) in Hd.
  destruct Hd as [Hu' (new & Htr & Hfifo & Hend)].
  { unfold unique_keys. simpl. by rewrite map_adjust_keys. }
  split; [done|]. exists new. split; [done|]. split; [|done].
  intros k1. specialize (Hfifo k1). simpl in Hfifo.
  by rewrite map_adjust_finished_stream_items in Hfifo.
Qed.

Lemma MarkQueuesAsFinished_to_the_end k ks s s' :
  MarkQueuesAsFinished ks s = Ok s' -> serves_to_the_end k s s'.
Proof.
  revert s. induction ks as [|k0 ks IH]; intros s H; simpl in H.
  - injection H as <-. intros Hu. split; [done|]. exists [].
    rewrite app_nil_r. by repeat split.
  - destruct (MarkQueueAsFinished k0 s) as [s1|] eqn:Hm; [|discriminate].
    simpl in H. eapply serves_to_the_end_trans; [|by apply IH].
    by eapply MarkQueueAsFinished_to_the_end.
Qed.

(** Whatever the finished flag of its queue, an item given in time
    order to a registered key of a well-ordered reachable state has the
    outcome described by [Add_outcome]. *)
Lemma Add_accepted ops s k d q :
  run ops init = Ok s ->
  well_ordered s ->
  map_find k (queues_ s) = Some q ->
  last_dispatched_time_ s <= GetTime d ->
  Forall (fun d0 => GetTime d0 <= GetTime d) (queue q) ->
  Add_outcome s k d q.
Proof.
  intros Hrun Hw Hfind Hlast Hback.
  destruct (run_settled _ _ _ settled_init Hrun) as [Hu _].
  set (s0 := set_queues (map_adjust (Push d) k (queues_ s)) s).
  assert (unique_keys (queues_ s0)) as Hu0
    by (unfold unique_keys; simpl; by rewrite map_adjust_keys).
  assert (well_ordered s0) as Hw0.
  { unfold well_ordered. simpl.
    eapply map_adjust_Forall; [exact Hw | exact Hfind|].
    destruct (well_ordered_find _ _ _ Hw Hfind) as [Hs Hall].
    unfold in_order, Push. simpl in *. split.
    - rewrite fmap_app. apply StronglySorted_app_2; [|done|repeat constructor].
      intros t1 t2 Ht1 ->%list_elem_of_singleton.
      apply list_elem_of_fmap in Ht1 as (d1 & -> & Hd1).
      rewrite Forall_forall in Hback. by apply Hback.
    - apply Forall_app. split; [done | by repeat constructor]. }
  destruct (Dispatch_ordered _ Hw0) as (s' & Hd & Hw').
  pose proof (Dispatch_settles _ _ Hu0 Hd) as Hs'.
  destruct (MarkQueuesAsFinished_well_ordered _ _ Hs' Hw' eq_refl)
    as (s'' & Hflush & _).
  destruct (MarkQueuesAsFinished_accounts _ _ _ Hs' eq_refl Hflush)
    as ([_ Hs''] & Hnone & _).
  specialize (Hs'' Hnone).
  pose proof (Dispatch_to_the_end k _ _ Hd) as H1.
  pose proof (MarkQueuesAsFinished_to_the_end k _ _ _ Hflush) as H2.
  destruct (H1 Hu0) as [_ (new1 & Htr1 & Hf1 & _)].
  destruct (serves_to_the_end_trans _ _ _ _ H1 H2 Hu0)
    as [_ (new & Htr & Hf & Hend)].
  assert (stream_items k (queues_ s0) = queue q ++ [d]) as Hk.
  { unfold s0. simpl.
    rewrite (map_adjust_Push_stream_items _ _ _ _ _ Hu Hfind).
    rewrite decide_True by done.
    by rewrite (stream_items_elem _ _ _ Hu (map_find_Some _ _ _ Hfind)). }
  pose proof (Hf k) as Hfk. rewrite Hk, Hs'' in Hfk. simpl in Hfk.
  rewrite app_nil_r in Hfk.
  exists s', s'', new1, new.
  split; [unfold Add; by rewrite Hfind|].
  split; [done|].
  split; [by rewrite <- Hk, Hf1|].
  split; [done|]. split; [done|]. split; [done|].
  eapply ends_delivered_last; [by symmetry|].
  apply Hend. by rewrite Hs''.
Qed.



(** The same outcome on a queue that is not finished: the flag makes no
    difference to what becomes of the item. *)
Lemma Add_to_unfinished_queue ops s k d q :
  run ops init = Ok s ->
  well_ordered s ->
  map_find k (queues_ s) = Some q ->
  finished q = false ->
  last_dispatched_time_ s <= GetTime d ->
  Forall (fun d0 => GetTime d0 <= GetTime d) (queue q) ->
  Add_outcome s k d q.
Proof. intros Hrun Hw Hfind _. by apply (Add_accepted ops). Qed.

(** Out of time order the CHECK_LE of the scan is fatal for an item on a
    finished queue as for any other: after A@5 has gone out, A@3 on the
    finished, empty queue A fails it. *)
Example out_of_order_item_on_finished_queue :
  Add keyA (item 3)
      (mkState [(keyA, mkQueue [] true); (keyB, mkQueue [] false)]
               5 {[ 0 := 5 ]} keyB [Delivered keyA (item 5)])
  = Err CheckFailed.
Proof. by vm_compute. Qed.
